(** * hsd consensus core: a shallow embedding and its properties

    The development follows the layout of the JavaScript sources:
    - [JS]         : the 32-bit integer operators of the language;
    - [BN]         : the big-number operations of bn.js the code calls;
    - [consensus]  : protocol/consensus.js (constants, compact targets,
                     proof-of-work check, block subsidy);
    - [bio]        : the buffer reader and writer calls used by the codec;
    - [ChainEntry] : blockchain/chainentry.js;
    - [View]       : covenants/view.js;
    - [genesis]    : scripts/genesis.js (the claimer transaction);
    - [NodeClient] : wallet/nodeclient.js.
    Definitions come first, the lemmas and theorems about them follow. *)

From Stdlib Require Import ZArith Lia Bool List String Ascii.
From Stdlib Require Import Init.Byte Strings.Byte.
From Stdlib Require Uint63.
From Stdlib Require Import Floats.PrimFloat Floats.FloatOps Floats.SpecFloat.
From Stdlib Require Import Sorting.Sorted Sorting.Permutation.
From stdpp Require Import gmap strings list sorting.

Local Open Scope Z_scope.

(* ===================================================================== *)
(** ** The integer operators of JavaScript *)
(* ===================================================================== *)

Module JS.

(** ToInt32 and ToUint32 of ECMAScript, on integral numbers. *)
Definition ToUint32 (z : Z) : Z := z mod 2 ^ 32.

Definition ToInt32 (z : Z) : Z := (z + 2 ^ 31) mod 2 ^ 32 - 2 ^ 31.

(** [a >>> k]: the shift count is taken modulo 32, the result is unsigned. *)
Definition ushr (a k : Z) : Z := Z.shiftr (ToUint32 a) (k mod 32).

(** [a << k]: the result is wrapped to a signed 32-bit integer. *)
Definition shl (a k : Z) : Z := ToInt32 (Z.shiftl (ToInt32 a) (k mod 32)).

(** [a & b] and [a | b] on signed 32-bit operands. *)
Definition band (a b : Z) : Z := Z.land (ToInt32 a) (ToInt32 b).

Definition bor (a b : Z) : Z := Z.lor (ToInt32 a) (ToInt32 b).

(** Truthiness of a number used as a condition. *)
Definition truthy (a : Z) : bool := negb (a =? 0).

(** A double that is an integer, an infinity or not a number; the code
    below only ever divides integers, so nothing else is needed. *)
Inductive number : Type :=
  | Num (z : Z)
  | Infinity
  | NaN.

(** [Math.floor(a / b)] for unsigned 32-bit [a] and [b].  For [b > 0] the
    rounded quotient of two such integers has the same floor as the exact
    one; [a / 0] is [Infinity] for [a > 0] and [NaN] for [a = 0]. *)
Definition floor_div (a b : Z) : number :=
  if b =? 0 then (if a =? 0 then NaN else Infinity)
  else Num (a / b).

(** [x | 0] on a double: truncation towards zero, then ToInt32; a value
    that is not finite gives 0. *)
Definition trunc (f : float) : Z :=
  match Prim2SF f with
  | S754_finite s m e =>
      let a := if (0 <=? e) then Z.shiftl (Zpos m) e
               else Z.shiftr (Zpos m) (- e) in
      if s then - a else a
  | _ => 0
  end.

Definition float_of_Z (z : Z) : float := PrimFloat.of_uint63 (Uint63.of_Z z).

Definition bor0 (f : float) : Z := ToInt32 (trunc f).

End JS.

(* ===================================================================== *)
(** ** Bytes *)
(* ===================================================================== *)

Definition Z_of_byte (b : byte) : Z := Z.of_N (Byte.to_N b).

Definition byte_of_Z (z : Z) : byte :=
  match Byte.of_N (Z.to_N (z mod 256)) with
  | Some b => b
  | None => x00
  end.

(** The value of a byte string read least significant byte first. *)
Fixpoint le_value (bs : list byte) : Z :=
  match bs with
  | [] => 0
  | b :: bs' => Z_of_byte b + 256 * le_value bs'
  end.

(** The [n] low bytes of [v], least significant first. *)
Fixpoint le_bytes (n : nat) (v : Z) : list byte :=
  match n with
  | O => []
  | S n' => byte_of_Z v :: le_bytes n' (v / 256)
  end.

Definition be_value (bs : list byte) : Z := le_value (rev bs).

Definition be_bytes (n : nat) (v : Z) : list byte := rev (le_bytes n v).

(* ===================================================================== *)
(** ** Hexadecimal strings *)
(* ===================================================================== *)

(** [buffer.toString('hex')]: two lowercase digits per byte. *)
Definition hex_char (n : Z) : ascii :=
  if n <? 10 then ascii_of_N (Z.to_N (48 + n))
  else ascii_of_N (Z.to_N (87 + n)).

Fixpoint to_hex (bs : list byte) : string :=
  match bs with
  | [] => EmptyString
  | b :: bs' =>
      String (hex_char (Z_of_byte b / 16))
        (String (hex_char (Z_of_byte b mod 16)) (to_hex bs'))
  end.

(** The value of a hexadecimal digit; decoding accepts both cases. *)
Definition hex_val (c : ascii) : option Z :=
  let n := Z.of_N (N_of_ascii c) in
  if (48 <=? n) && (n <=? 57) then Some (n - 48)
  else if (97 <=? n) && (n <=? 102) then Some (n - 87)
  else if (65 <=? n) && (n <=? 70) then Some (n - 55)
  else None.

Fixpoint from_hex (s : string) : option (list byte) :=
  match s with
  | EmptyString => Some []
  | String c1 (String c2 s') =>
      match hex_val c1, hex_val c2, from_hex s' with
      | Some h, Some l, Some bs => Some (byte_of_Z (16 * h + l) :: bs)
      | _, _, _ => None
      end
  | String _ EmptyString => None
  end.

Definition is_lower_hex_char (c : ascii) : bool :=
  let n := Z.of_N (N_of_ascii c) in
  ((48 <=? n) && (n <=? 57)) || ((97 <=? n) && (n <=? 102)).

Fixpoint is_lower_hex (s : string) : bool :=
  match s with
  | EmptyString => true
  | String c s' => is_lower_hex_char c && is_lower_hex s'
  end.

(** A hash as the code holds it: 64 lowercase hexadecimal digits. *)
Definition is_hash (s : string) : bool :=
  (Z.of_nat (String.length s) =? 64) && is_lower_hex s.

(* ===================================================================== *)
(** ** bn.js *)
(* ===================================================================== *)

(** A BN is a sign and a magnitude with no negative zero: an integer. *)
Module BN.

Definition isZero (n : Z) : bool := n =? 0.

Definition isNeg (n : Z) : bool := n <? 0.

Definition bitLength (n : Z) : Z :=
  if n =? 0 then 0 else Z.log2 (Z.abs n) + 1.

(** [Math.ceil(this.bitLength() / 8)] *)
Definition byteLength (n : Z) : Z := (bitLength n + 7) / 8.

Definition ineg (n : Z) : Z := - n.

(** Shifts act on the magnitude and keep the sign. *)
Definition iushln (n bits : Z) : Z := Z.sgn n * Z.shiftl (Z.abs n) bits.

Definition ushrn (n bits : Z) : Z := Z.sgn n * Z.shiftr (Z.abs n) bits.

(** [toNumber] is exact up to 53 bits; the callers stay below 25. *)
Definition toNumber (n : Z) : Z := n.

(** [div] truncates towards zero. *)
Definition div (a b : Z) : Z := Z.quot a b.

Definition iaddn (a n : Z) : Z := a + n.

Definition iadd (a b : Z) : Z := a + b.

Definition gt (a b : Z) : bool := b <? a.

(** [new BN(buffer, 'be')] *)
Definition fromBE (bs : list byte) : Z := be_value bs.

(** [toArrayLike(Buffer, 'be', len)]: the magnitude, left-padded with
    zeros; an assertion fails when it needs more than [len] bytes. *)
Definition toArrayLike_be (n : Z) (len : nat) : option (list byte) :=
  if byteLength n <=? Z.of_nat len then Some (be_bytes len (Z.abs n))
  else None.

End BN.

(* ===================================================================== *)
(** ** protocol/consensus.js *)
(* ===================================================================== *)

Module consensus.

Definition EXP : Z := 6.

(** [Math.pow(10, EXP)] *)
Definition COIN : Z := 10 ^ EXP.

Definition MAX_INVESTORS : Z := 102000000 * COIN.
Definition MAX_FOUNDATION : Z := 102000000 * COIN.
Definition MAX_CREATORS : Z := 102000000 * COIN.
Definition MAX_AIRDROP : Z := 1054000000 * COIN.

Definition BASE_REWARD : Z := 1000 * COIN.

(** [BASE_REWARD + ((4.42 * COIN) | 0)]: the product is a binary64
    multiplication, computed here by the primitive floats. *)
#[warnings="-inexact-float"]
Definition GENESIS_REWARD : Z :=
  BASE_REWARD + JS.bor0 (4.42 * JS.float_of_Z COIN)%float.

(** [Buffer.from('f0237ae2e8f860f7d79124fc513f012e5aaa8d23', 'hex')] *)
Definition GENESIS_KEY : list byte :=
  match from_hex "f0237ae2e8f860f7d79124fc513f012e5aaa8d23" with
  | Some bs => bs
  | None => []
  end.

Definition NONCE_SIZE : nat := 20.

Definition NULL_HASH : string :=
  "0000000000000000000000000000000000000000000000000000000000000000".

Definition HEADER_SIZE : Z := 196.

Definition fromCompact (compact : Z) : Z :=
  if compact =? 0 then 0
  else
    let exponent := JS.ushr compact 24 in
    let negative := JS.band (JS.ushr compact 23) 1 in
    let mantissa := JS.band compact 0x7fffff in
    let num :=
      if exponent <=? 3 then JS.ushr mantissa (8 * (3 - exponent))
      else BN.iushln mantissa (8 * (exponent - 3)) in
    if JS.truthy negative then BN.ineg num else num.

Definition toCompact (num : Z) : Z :=
  if BN.isZero num then 0
  else
    let exponent := BN.byteLength num in
    let mantissa :=
      if exponent <=? 3 then JS.shl (BN.toNumber num) (8 * (3 - exponent))
      else BN.toNumber (BN.ushrn num (8 * (exponent - 3))) in
    let carry := JS.truthy (JS.band mantissa 0x800000) in
    let mantissa := if carry then JS.ushr mantissa 8 else mantissa in
    let exponent := if carry then exponent + 1 else exponent in
    let compact := JS.bor (JS.shl exponent 24) mantissa in
    let compact := if BN.isNeg num then JS.bor compact 0x800000 else compact in
    JS.ushr compact 0.

Definition verifyPOW (hash : list byte) (bits : Z) : bool :=
  let target := fromCompact bits in
  if BN.isNeg target || BN.isZero target then false
  else if 256 <? BN.bitLength target then false
  else
    let num := BN.fromBE hash in
    if BN.gt num target then false
    else true.

(** [getReward]: [None] stands for a failed assertion. *)
Definition getReward (height interval : Z) : option JS.number :=
  if negb (JS.ToUint32 height =? height) then None
  else if negb (JS.ToUint32 interval =? interval) then None
  else
    match JS.floor_div height interval with
    | JS.Infinity => Some (JS.Num 0)
    | JS.NaN => Some JS.NaN
    | JS.Num halvings =>
        if 52 <=? halvings then Some (JS.Num 0)
        else Some (JS.Num (BASE_REWARD / 2 ^ halvings))
    end.

(** [1.36e9 * COIN], [0.68e9 * COIN] and [2.04e9 * COIN]: products of
    integers, exact in binary64. *)
Definition MAX_PREMINE : Z := 1360000000 * COIN.
Definition MAX_SUBSIDY : Z := 680000000 * COIN.
Definition MAX_MONEY : Z := 2040000000 * COIN.

(** [(version & (1 << bit)) !== 0] *)
Definition hasBit (version bit : Z) : bool :=
  negb (JS.band version (JS.shl 1 bit) =? 0).

(** [Buffer.alloc(32, 0x00)] *)
Definition ZERO_HASH : list byte := repeat x00 32.

End consensus.

(* ===================================================================== *)
(** ** bufio: the reader and writer calls of the codec *)
(* ===================================================================== *)

Module bio.

(** A reader consumes a prefix of the remaining bytes or fails (the
    library throws when it runs past the end). *)
Definition reader (A : Type) : Type := list byte -> option (A * list byte).

Definition ret {A : Type} (a : A) : reader A := fun bs => Some (a, bs).

Definition bind {A B : Type} (m : reader A) (k : A -> reader B) : reader B :=
  fun bs =>
    match m bs with
    | Some (a, rest) => k a rest
    | None => None
    end.

Definition fail {A : Type} : reader A := fun _ => None.

Notation "'do' x <- m ; k" := (bind m (fun x => k))
  (at level 10, x name, m at level 100, k at level 200,
   format "'[v' 'do'  x  <-  m ; '/' k ']'").

Definition readBytes (n : nat) : reader (list byte) :=
  fun bs =>
    if (n <=? length bs)%nat then Some (firstn n bs, skipn n bs) else None.

Definition readU8 : reader Z :=
  do bs <- readBytes 1; ret (le_value bs).

Definition readU32 : reader Z :=
  do bs <- readBytes 4; ret (le_value bs).

(** [readU64] refuses a value above 2^53 - 1. *)
Definition readU64 : reader Z :=
  do bs <- readBytes 8;
  if le_value bs <? 2 ^ 53 then ret (le_value bs) else fail.

(** [readHash('hex')] *)
Definition readHash : reader string :=
  do bs <- readBytes 32; ret (to_hex bs).

(** Writers return the bytes they append; [None] is a failed check. *)
Definition writeU8 (v : Z) : list byte := le_bytes 1 v.

Definition writeU32 (v : Z) : list byte := le_bytes 4 v.

Definition writeU64 (v : Z) : option (list byte) :=
  if (0 <=? v) && (v <? 2 ^ 53) then Some (le_bytes 8 v) else None.

Definition writeHash (s : string) : option (list byte) :=
  if Z.of_nat (String.length s) =? 64 then from_hex s else None.

Definition writeBytes (bs : list byte) : list byte := bs.

(** [bio.write(size)] allocates a writer over a buffer of exactly [size]
    bytes, and [render()] returns that buffer once every byte of it has
    been written; it throws when the writes stopped short of the end, as a
    write does that would run past it. *)
Definition render (size : Z) (written : list byte) : option (list byte) :=
  if Z.of_nat (length written) =? size then Some written else None.

End bio.

(* ===================================================================== *)
(** ** blockchain/chainentry.js *)
(* ===================================================================== *)

(** The proof-of-work solution comes from the bcuckoo package; the entry
    only calls its size, writer and reader.  [sol_valid] is the range on
    which that package's codec is its own inverse. *)
Class SolutionCodec (Solution : Type) : Type := {
  sol_valid : Solution -> Prop;
  sol_getSize : Solution -> Z;
  sol_toWriter : Solution -> list byte;
  sol_fromReader : bio.reader Solution
}.

(** What the entry relies on: the reader undoes the writer on a valid
    solution, whatever follows it, and [getSize] is the written length. *)
Definition sol_codec_laws (Solution : Type) `{SolutionCodec Solution} : Prop :=
  (forall s rest, sol_valid s ->
     sol_fromReader (sol_toWriter s ++ rest) = Some (s, rest)) /\
  (forall s, Z.of_nat (length (sol_toWriter s)) = sol_getSize s).

(** A codec for the examples: a solution as its sequence of 32-bit edge
    indices, written as a count byte followed by the indices. *)
Fixpoint read_words (n : nat) : bio.reader (list Z) :=
  match n with
  | O => bio.ret []
  | S n' =>
      bio.bind bio.readU32 (fun w =>
      bio.bind (read_words n') (fun ws => bio.ret (w :: ws)))
  end.

Definition words_codec : SolutionCodec (list Z) := {|
  sol_valid s :=
    Z.of_nat (length s) < 256 /\ Forall (fun w => 0 <= w < 2 ^ 32) s;
  sol_getSize s := 1 + 4 * Z.of_nat (length s);
  sol_toWriter s :=
    bio.writeU8 (Z.of_nat (length s)) ++ flat_map bio.writeU32 s;
  sol_fromReader :=
    bio.bind bio.readU8 (fun n => read_words (Z.to_nat n))
|}.

Module Block.

(** The header fields of a block that an entry copies; [hash] stands for
    [block.hash('hex')]. *)
Record t (Solution : Type) : Type := mk {
  hash : string;
  version : Z;
  prevBlock : string;
  merkleRoot : string;
  witnessRoot : string;
  treeRoot : string;
  time : Z;
  bits : Z;
  nonce : list byte;
  solution : Solution
}.

Arguments mk {Solution}.
Arguments hash {Solution}.
Arguments version {Solution}.
Arguments prevBlock {Solution}.
Arguments merkleRoot {Solution}.
Arguments witnessRoot {Solution}.
Arguments treeRoot {Solution}.
Arguments time {Solution}.
Arguments bits {Solution}.
Arguments nonce {Solution}.
Arguments solution {Solution}.

End Block.

Module ChainEntry.

Record t (Solution : Type) : Type := mk {
  hash : string;
  version : Z;
  prevBlock : string;
  merkleRoot : string;
  witnessRoot : string;
  treeRoot : string;
  time : Z;
  bits : Z;
  nonce : list byte;
  solution : Solution;
  height : Z;
  chainwork : Z
}.

Arguments mk {Solution}.
Arguments hash {Solution}.
Arguments version {Solution}.
Arguments prevBlock {Solution}.
Arguments merkleRoot {Solution}.
Arguments witnessRoot {Solution}.
Arguments treeRoot {Solution}.
Arguments time {Solution}.
Arguments bits {Solution}.
Arguments nonce {Solution}.
Arguments solution {Solution}.
Arguments height {Solution}.
Arguments chainwork {Solution}.

(** [new ChainEntry()]: the constructor's defaults, over the solution
    [zero_sol] that stands for [consensus.ZERO_SOL]. *)
Definition create {Solution : Type} (zero_sol : Solution) : t Solution :=
  {| hash := consensus.NULL_HASH;
     version := 0;
     prevBlock := consensus.NULL_HASH;
     merkleRoot := consensus.NULL_HASH;
     witnessRoot := consensus.NULL_HASH;
     treeRoot := consensus.NULL_HASH;
     time := 0;
     bits := 0;
     nonce := repeat x00 consensus.NONCE_SIZE;
     solution := zero_sol;
     height := 0;
     chainwork := 0 |}.

(** [ChainEntry.MAX_CHAINWORK = new BN(1).ushln(256)] *)
Definition MAX_CHAINWORK : Z := BN.iushln 1 256.

Section entry.
Context {Solution : Type} `{SolutionCodec Solution}.

Definition getProof (e : t Solution) : Z :=
  let target := consensus.fromCompact (bits e) in
  if BN.isNeg target || BN.isZero target then 0
  else BN.div MAX_CHAINWORK (BN.iaddn target 1).

Definition getChainwork (e : t Solution) (prev : option (t Solution)) : Z :=
  let proof := getProof e in
  match prev with
  | None => proof
  | Some p => BN.iadd proof (chainwork p)
  end.

Definition isGenesis (e : t Solution) : bool := height e =? 0.

Definition fromBlock (block : Block.t Solution) (prev : option (t Solution))
  : t Solution :=
  let this :=
    {| hash := Block.hash block;
       version := Block.version block;
       prevBlock := Block.prevBlock block;
       merkleRoot := Block.merkleRoot block;
       witnessRoot := Block.witnessRoot block;
       treeRoot := Block.treeRoot block;
       time := Block.time block;
       bits := Block.bits block;
       nonce := Block.nonce block;
       solution := Block.solution block;
       height := match prev with Some p => height p + 1 | None => 0 end;
       chainwork := 0 |} in
  {| hash := hash this;
     version := version this;
     prevBlock := prevBlock this;
     merkleRoot := merkleRoot this;
     witnessRoot := witnessRoot this;
     treeRoot := treeRoot this;
     time := time this;
     bits := bits this;
     nonce := nonce this;
     solution := solution this;
     height := height this;
     chainwork := getChainwork this prev |}.

Definition getSize (e : t Solution) : Z :=
  36 + consensus.HEADER_SIZE + sol_getSize (solution e) + 32.

(** The writes of [toRaw], in order. *)
Definition toRaw_writes (e : t Solution) : option (list byte) :=
  h ← bio.writeHash (hash e);
  p ← bio.writeHash (prevBlock e);
  m ← bio.writeHash (merkleRoot e);
  w ← bio.writeHash (witnessRoot e);
  r ← bio.writeHash (treeRoot e);
  t ← bio.writeU64 (time e);
  c ← BN.toArrayLike_be (chainwork e) 32;
  Some (h ++ bio.writeU32 (height e) ++ bio.writeU32 (version e)
          ++ p ++ m ++ w ++ r ++ t ++ bio.writeU32 (bits e)
          ++ bio.writeBytes (nonce e) ++ sol_toWriter (solution e)
          ++ bio.writeBytes c).

(** [toRaw]: the writes go to a writer of [getSize()] bytes, which is then
    rendered. *)
Definition toRaw (e : t Solution) : option (list byte) :=
  written ← toRaw_writes e;
  bio.render (getSize e) written.

Import bio.

Definition read : bio.reader (t Solution) :=
  do hash' <- readHash;
  do height' <- readU32;
  do version' <- readU32;
  do prevBlock' <- readHash;
  do merkleRoot' <- readHash;
  do witnessRoot' <- readHash;
  do treeRoot' <- readHash;
  do time' <- readU64;
  do bits' <- readU32;
  do nonce' <- readBytes consensus.NONCE_SIZE;
  do solution' <- sol_fromReader;
  do chainwork' <- readBytes 32;
  ret {| hash := hash'; version := version'; prevBlock := prevBlock';
         merkleRoot := merkleRoot'; witnessRoot := witnessRoot';
         treeRoot := treeRoot'; time := time'; bits := bits';
         nonce := nonce'; solution := solution'; height := height';
         chainwork := BN.fromBE chainwork' |}.

(** [fromRaw] reads from the start of the data and ignores what is left. *)
Definition fromRaw (data : list byte) : option (t Solution) :=
  match read data with
  | Some (e, _) => Some e
  | None => None
  end.

(** An entry whose fields have the types of the data model: hashes of 64
    lowercase hexadecimal digits, unsigned 32-bit height, version and bits,
    a time that is a safe integer, a nonce of [NONCE_SIZE] bytes, a valid
    solution and an unsigned 256-bit chainwork. *)
Definition well_formed (e : t Solution) : Prop :=
  is_hash (hash e) = true /\
  is_hash (prevBlock e) = true /\
  is_hash (merkleRoot e) = true /\
  is_hash (witnessRoot e) = true /\
  is_hash (treeRoot e) = true /\
  0 <= height e < 2 ^ 32 /\
  0 <= version e < 2 ^ 32 /\
  0 <= time e < 2 ^ 53 /\
  0 <= bits e < 2 ^ 32 /\
  length (nonce e) = consensus.NONCE_SIZE /\
  sol_valid (solution e) /\
  0 <= chainwork e < 2 ^ 256.

(** [hasBit(bit)] *)
Definition hasBit (e : t Solution) (bit : Z) : bool :=
  consensus.hasBit (version e) bit.

(** The entries of a chain: each block's entry is made by [fromBlock]
    from the block and the entry before it, the first one from no entry.
    The result is the entry of the last block. *)
Definition connect (prev : option (t Solution))
    (blocks : list (Block.t Solution)) : option (t Solution) :=
  fold_left (fun prev block => Some (fromBlock block prev)) blocks prev.

End entry.

(** The object [fromJSON] takes, with the types its assertions ask of the
    fields; [SolJSON] is what the solution's own [fromJSON] takes. *)
Record json (SolJSON : Type) : Type := mk_json {
  j_hash : string;
  j_height : Z;
  j_version : Z;
  j_prevBlock : string;
  j_merkleRoot : string;
  j_witnessRoot : string;
  j_treeRoot : string;
  j_time : Z;
  j_bits : Z;
  j_nonce : string;
  j_solution : SolJSON;
  j_chainwork : string
}.

Arguments mk_json {SolJSON}.
Arguments j_hash {SolJSON}.
Arguments j_height {SolJSON}.
Arguments j_version {SolJSON}.
Arguments j_prevBlock {SolJSON}.
Arguments j_merkleRoot {SolJSON}.
Arguments j_witnessRoot {SolJSON}.
Arguments j_treeRoot {SolJSON}.
Arguments j_time {SolJSON}.
Arguments j_bits {SolJSON}.
Arguments j_nonce {SolJSON}.
Arguments j_solution {SolJSON}.
Arguments j_chainwork {SolJSON}.

(** [Buffer.from(s, 'hex')]: the bytes of the pairs of hexadecimal digits
    of [s], up to the first pair that is not one. *)
Fixpoint Buffer_from_hex (s : string) : list byte :=
  match s with
  | String c1 (String c2 s') =>
      match hex_val c1, hex_val c2 with
      | Some h, Some l => byte_of_Z (16 * h + l) :: Buffer_from_hex s'
      | _, _ => []
      end
  | _ => []
  end.

Definition is_u32 (n : Z) : bool := JS.ToUint32 n =? n.

Definition length_is (s : string) (n : Z) : bool :=
  Z.of_nat (String.length s) =? n.

(** [fromJSON(json)]: [None] is a failed assertion or a throw of the
    solution's [fromJSON], here [sol_fromJSON]. *)
Definition fromJSON {Solution SolJSON : Type}
    (sol_fromJSON : SolJSON -> option Solution) (j : json SolJSON)
  : option (t Solution) :=
  if negb (length_is (j_hash j) 64) then None
  else if negb (is_u32 (j_height j)) then None
  else if negb (is_u32 (j_version j)) then None
  else if negb (length_is (j_prevBlock j) 64) then None
  else if negb (length_is (j_merkleRoot j) 64) then None
  else if negb (length_is (j_witnessRoot j) 64) then None
  else if negb (length_is (j_treeRoot j) 64) then None
  else if negb ((0 <=? j_time j) && (j_time j <? 2 ^ 53)) then None
  else if negb (is_u32 (j_bits j)) then None
  else if negb (length_is (j_nonce j) 32) then None
  else if negb (length_is (j_chainwork j) 64) then None
  else
    let nonce := Buffer_from_hex (j_nonce j) in
    if negb (length nonce =? consensus.NONCE_SIZE)%nat then None
    else
      let chainwork := Buffer_from_hex (j_chainwork j) in
      if negb (length chainwork =? 32)%nat then None
      else
        match sol_fromJSON (j_solution j) with
        | None => None
        | Some sol =>
            Some {| hash := j_hash j;
                    version := j_version j;
                    prevBlock := j_prevBlock j;
                    merkleRoot := j_merkleRoot j;
                    witnessRoot := j_witnessRoot j;
                    treeRoot := j_treeRoot j;
                    time := j_time j;
                    bits := j_bits j;
                    nonce := nonce;
                    solution := sol;
                    height := j_height j;
                    chainwork := BN.fromBE chainwork |}
        end.

End ChainEntry.

(** A solution reader is canonical when the bytes it consumes are the
    ones the writer gives for the solution it returns. *)
Definition sol_reads_canonical (Solution : Type) `{SolutionCodec Solution}
  : Prop :=
  forall bs s rest,
    sol_fromReader bs = Some (s, rest) -> bs = sol_toWriter s ++ rest.

(* ===================================================================== *)
(** ** covenants/view.js *)
(* ===================================================================== *)

Module Auction.

Inductive state : Type := BIDDING | REVEAL | CLOSED | RENEWED | REVOKED.

(** Modelled from the spec: the Auction class (covenants/auction.js) is not
    among the sources.  The record has the fields the data model gives an
    auction; the values a newly constructed auction holds are not given,
    so [View.getAuction] takes the fresh object as an argument. *)
Record t : Type := mk {
  nameHash : list byte;
  name : list byte;
  height : Z;
  renewal : Z;
  owner : string * Z;
  value : Z;
  highest : Z;
  st : state;
  transfer : option (list byte)
}.

(** [auction.nameHash = nameHash] *)
Definition set_nameHash (a : t) (h : list byte) : t :=
  {| nameHash := h; name := name a; height := height a;
     renewal := renewal a; owner := owner a; value := value a;
     highest := highest a; st := st a; transfer := transfer a |}.

End Auction.

(** An auction for the examples. *)
Definition example_auction : Auction.t :=
  {| Auction.nameHash := [];
     Auction.name := [];
     Auction.height := 0;
     Auction.renewal := 0;
     Auction.owner := (consensus.NULL_HASH, 0);
     Auction.value := 0;
     Auction.highest := 0;
     Auction.st := Auction.BIDDING;
     Auction.transfer := None |}.

Module View.

(** [this.auctions = new Map()], keyed by the hex form of the name hash. *)
Record t : Type := mk { auctions : gmap string Auction.t }.

Definition empty : t := {| auctions := ∅ |}.

(** [getAuction(db, nameHash)]: [db] is the store's lookup ([None] for
    [null]), [fresh] is [new Auction()].  The result is the returned
    auction and the view after the call. *)
Definition getAuction (fresh : Auction.t) (this : t)
    (db : list byte -> option Auction.t) (nameHash : list byte)
  : Auction.t * t :=
  let hash := to_hex nameHash in
  match auctions this !! hash with
  | Some cache => (cache, this)
  | None =>
      match db nameHash with
      | None =>
          let auction := Auction.set_nameHash fresh nameHash in
          (auction, {| auctions := <[hash := auction]> (auctions this) |})
      | Some auction =>
          (auction, {| auctions := <[hash := auction]> (auctions this) |})
      end
  end.

End View.

(* ===================================================================== *)
(** ** scripts/genesis.js *)
(* ===================================================================== *)

Module genesis.

(** Modelled from the spec: the covenant types of covenants/rules.js, which
    is not among the sources, in the order of the data model's table. *)
Inductive covenant_type : Type :=
  | NONE | CLAIM | BID | REVEAL | REDEEM | REGISTER | UPDATE | RENEW
  | TRANSFER | FINALIZE | REVOKE.

Record Address : Type := { addr_version : Z; addr_hash : list byte }.

Record Covenant : Type := { type : covenant_type; items : list (list byte) }.

Record Output : Type := {
  value : Z;
  address : Address;
  covenant : Covenant
}.

Record Outpoint : Type := { prev_hash : string; index : Z }.

Record Input : Type := {
  prevout : Outpoint;
  witness : list (list byte);
  sequence : Z
}.

Record TX : Type := {
  tx_version : Z;
  inputs : list Input;
  outputs : list Output;
  locktime : Z
}.

Record Keys : Type := {
  investors : list byte;
  foundation : list byte;
  claimant : list byte;
  creators : list byte;
  airdrop : list byte
}.

(** [Address.fromHash(hash, version)] *)
Definition Address_fromHash (hash : list byte) (version : Z) : Address :=
  {| addr_version := version; addr_hash := hash |}.

(** An output given by value and address alone has the empty covenant. *)
Definition plain_output (v : Z) (a : Address) : Output :=
  {| value := v; address := a; covenant := {| type := NONE; items := [] |} |}.

(** [Buffer.from(s, 'ascii')] *)
Definition ascii_bytes (s : string) : list byte :=
  map byte_of_ascii (list_ascii_of_string s).

(** [name.slice(0, -1)] *)
Definition slice_0_m1 (name : string) : string :=
  substring 0 (String.length name - 1) name.

(** The order of the default [sort()] on strings. *)
Definition string_le (a b : string) : Prop := String.leb a b = true.

#[export] Instance string_le_dec : RelDecision string_le :=
  fun a b => decide (String.leb a b = true).

(** [Object.keys(root).sort()]: [root_keys] are the keys of the root-zone
    snapshot etc/root.json, which is not among the sources. *)
Definition names (root_keys : list string) : list string :=
  merge_sort string_le root_keys.

Definition flags_default : list byte :=
  ascii_bytes "01/Nov/2017 EFF to ICANN: Don't Pick Up the Censor's Pen".

Section builder.

(** [tx.hash('hex')] *)
Variable tx_hash : TX -> string.

Variable keys : Keys.

Variable root_keys : list string.

Definition coinbase (flags : option (list byte)) : TX :=
  let flags := match flags with Some f => f | None => flags_default end in
  {| tx_version := 0;
     inputs := [ {| prevout := {| prev_hash := consensus.NULL_HASH;
                                  index := 0xffffffff |};
                    witness := [flags];
                    sequence := 0xffffffff |} ];
     outputs :=
       [ plain_output consensus.GENESIS_REWARD
           (Address_fromHash consensus.GENESIS_KEY 0);
         plain_output consensus.MAX_INVESTORS
           (Address_fromHash (investors keys) 0);
         plain_output consensus.MAX_FOUNDATION
           (Address_fromHash (foundation keys) 0);
         plain_output consensus.MAX_CREATORS
           (Address_fromHash (creators keys) 0);
         plain_output consensus.MAX_AIRDROP
           (Address_fromHash (airdrop keys) 0) ];
     locktime := 0 |}.

(** The body of the loop over [names]: one claim output. *)
Definition claim_output (name : string) : Output :=
  let rawName := ascii_bytes (slice_0_m1 name) in
  {| value := 0;
     address := Address_fromHash (claimant keys) 0;
     covenant := {| type := CLAIM; items := [] ++ [rawName] |} |}.

(** [claimer.outputs.push(claim)] for each name in turn. *)
Definition push_claims (outs : list Output) (ns : list string) : list Output :=
  fold_left (fun acc name => acc ++ [claim_output name]) ns outs.

Definition claimer (flags : option (list byte)) : TX :=
  let tx := coinbase flags in
  let genesis := Address_fromHash consensus.GENESIS_KEY 0 in
  {| tx_version := 0;
     inputs := [ {| prevout := {| prev_hash := tx_hash tx; index := 0 |};
                    witness := [];
                    sequence := 0xffffffff |} ];
     outputs :=
       push_claims [ plain_output consensus.GENESIS_REWARD genesis ]
         (names root_keys);
     locktime := 0 |}.

End builder.

Section registry_builder.

(** The values of the root-zone snapshot etc/root.json, which is not among
    the sources, and what the loop computes from one of them:
    [Resource.fromJSON({ttl, ds, ns: glue}).toRaw()], or nothing when one of
    the three assertions on the value fails or the resource code throws. *)
Variable RootData : Type.

Variable resource_raw : RootData -> option (list byte).

Variable tx_hash : TX -> string.

Variable keys : Keys.

(** [root]: the snapshot, an object used as a map from names. *)
Variable root : gmap string RootData.

(** [Object.keys(root)] *)
Definition root_keys_of : list string := (map_to_list root).*1.

(** [Input.fromOutpoint(claimer.outpoint(i + 1))]: the input carries the
    outpoint, no witness and the final sequence number, as the inputs the
    script writes out do. *)
Definition claim_input (claimer_hash : string) (i : nat) : Input :=
  {| prevout := {| prev_hash := claimer_hash; index := Z.of_nat i + 1 |};
     witness := [];
     sequence := 0xffffffff |}.

Definition register_output (name : string) (res : list byte) : Output :=
  let rawName := ascii_bytes (slice_0_m1 name) in
  {| value := 0;
     address := Address_fromHash (claimant keys) 0;
     covenant := {| type := REGISTER;
                    items := [rawName; res; consensus.ZERO_HASH] |} |}.

(** The loop [for (let i = 0; i < names.length; i++)], from index [i] on,
    over the names left; [None] is a throw. *)
Fixpoint registry_loop (claimer_hash : string) (i : nat) (ns : list string)
    (ins : list Input) (outs : list Output)
  : option (list Input * list Output) :=
  match ns with
  | [] => Some (ins, outs)
  | name :: ns' =>
      match root !! name with
      | None => None
      | Some data =>
          match resource_raw data with
          | None => None
          | Some res =>
              registry_loop claimer_hash (S i) ns'
                (ins ++ [claim_input claimer_hash i])
                (outs ++ [register_output name res])
          end
      end
  end.

Definition registry (flags : option (list byte)) : option TX :=
  let claimer_tx := claimer tx_hash keys root_keys_of flags in
  match registry_loop (tx_hash claimer_tx) 0 (names root_keys_of) [] [] with
  | Some (ins, outs) =>
      Some {| tx_version := 0; inputs := ins; outputs := outs;
              locktime := 0 |}
  | None => None
  end.

(** [block.txs] of the block [createGenesisBlock] returns. *)
Definition genesis_txs (flags : option (list byte)) : option (list TX) :=
  match registry flags with
  | Some registry_tx =>
      Some [coinbase keys flags;
            claimer tx_hash keys root_keys_of flags;
            registry_tx]
  | None => None
  end.

End registry_builder.

Arguments root_keys_of {RootData}.
Arguments registry_loop {RootData}.
Arguments registry {RootData}.
Arguments genesis_txs {RootData}.

(** The values of a list of outputs together. *)
Definition total_value (outs : list Output) : Z :=
  fold_right (fun o acc => value o + acc) 0 outs.

End genesis.

(* ===================================================================== *)
(** ** wallet/nodeclient.js *)
(* ===================================================================== *)

Module NodeClient.

Section client.

Context {Entry Block TX Hash : Type}.

(** [block.txs] *)
Variable txs : Block -> list TX.

(** What the node's chain answers: [getEntry(hash)] ([None] for [null])
    and [isMainChain(entry)]. *)
Record Chain : Type := {
  chain_getEntry : Hash -> option Entry;
  chain_isMainChain : Entry -> bool
}.

(** The events the node emits to the listeners installed by [init]. *)
Inductive node_event : Type :=
  | node_connect (entry : Entry) (block : Block)
  | node_disconnect (entry : Entry) (block : Block)
  | node_tx (tx : TX)
  | node_reset (tip : Entry).

(** The events the client emits to its subscribers. *)
Inductive event : Type :=
  | block_connect (entry : Entry) (txs : list TX)
  | block_disconnect (entry : Entry)
  | ev_tx (tx : TX)
  | chain_reset (tip : Entry)
  | ev_connect
  | ev_disconnect.

(** The four chain events, as opposed to the client's own
    'connect' and 'disconnect'. *)
Definition is_chain_event (e : event) : bool :=
  match e with
  | block_connect _ _ | block_disconnect _ | ev_tx _ | chain_reset _ => true
  | ev_connect | ev_disconnect => false
  end.

(** The two callbacks the client hands to [setImmediate]:
    [() => this.emit('connect')] and [() => this.emit('disconnect')]. *)
Inductive immediate : Type := emit_connect | emit_disconnect.

Definition run_immediate (i : immediate) : event :=
  match i with
  | emit_connect => ev_connect
  | emit_disconnect => ev_disconnect
  end.

(** The client: its flag and the callbacks handed to [setImmediate] that
    have not run yet. *)
Record t : Type := mk {
  opened : bool;
  immediates : list immediate
}.

(** [constructor]: [this.opened = false]. *)
Definition create : t := {| opened := false; immediates := [] |}.

(** The four listeners of [init]; each returns what it emits. *)
Definition on_node (this : t) (n : node_event) : list event :=
  if negb (opened this) then []
  else
    match n with
    | node_connect entry block => [block_connect entry (txs block)]
    | node_disconnect entry _ => [block_disconnect entry]
    | node_tx tx => [ev_tx tx]
    | node_reset tip => [chain_reset tip]
    end.

(** [open] and [close]; [None] is the failed assertion. *)
Definition open (this : t) : option t :=
  if opened this then None
  else Some {| opened := true;
               immediates := immediates this ++ [emit_connect] |}.

Definition close (this : t) : option t :=
  if negb (opened this) then None
  else Some {| opened := false;
               immediates := immediates this ++ [emit_disconnect] |}.

(** What can happen to a client: a node event reaches a listener, [open]
    or [close] is called, or the event loop runs the pending immediates. *)
Inductive input : Type :=
  | from_node (n : node_event)
  | call_open
  | call_close
  | run_immediates.

(** One step: the next client and the events delivered to subscribers. *)
Definition step (this : t) (i : input) : option (t * list event) :=
  match i with
  | from_node n => Some (this, on_node this n)
  | call_open => c ← open this; Some (c, [])
  | call_close => c ← close this; Some (c, [])
  | run_immediates =>
      Some ({| opened := opened this; immediates := [] |},
            map run_immediate (immediates this))
  end.

(** The history of a run: for each step taken, the client before it, the
    input and the events delivered.  A failed assertion ends the run. *)
Fixpoint exec (this : t) (ins : list input) : list (t * input * list event) :=
  match ins with
  | [] => []
  | i :: ins' =>
      match step this i with
      | Some (c, out) => (this, i, out) :: exec c ins'
      | None => []
      end
  end.

(** [getEntry(hash)] *)
Definition getEntry (chain : Chain) (hash : Hash) : option Entry :=
  match chain_getEntry chain hash with
  | None => None
  | Some entry =>
      if negb (chain_isMainChain chain entry) then None
      else Some entry
  end.

End client.

Arguments Chain : clear implicits.
Arguments node_event : clear implicits.
Arguments event : clear implicits.
Arguments input : clear implicits.

End NodeClient.

(* ===================================================================== *)
(** ** The specification's own wording of the proof of work *)
(* ===================================================================== *)

(** The proof term as the specification words it: [(1 << 256) / (target + 1)],
    zero when the target is zero or negative; the division is the floor. *)
Definition spec_proof (bits : Z) : Z :=
  let target := consensus.fromCompact bits in
  if 0 <? target then 2 ^ 256 / (target + 1) else 0.

(** A value whose mantissa fits the 23 bits of the compact form: [m]
    shifted left by whole bytes. *)
Definition fits_mantissa (x : Z) : Prop :=
  exists m k, 0 < m < 2 ^ 23 /\ 0 <= k /\ x = m * 2 ^ (8 * k).

(** The three leading bytes of [x], as [toCompact] first computes them. *)
Definition leading_bytes (x : Z) : Z :=
  let n := BN.byteLength x in
  if n <=? 3 then x * 2 ^ (8 * (3 - n)) else x / 2 ^ (8 * (n - 3)).

(** The subsidy a block at [height] adds to the supply: the number
    [getReward] returns, nothing when it returns none. *)
Definition subsidy (interval : Z) (height : nat) : Z :=
  match consensus.getReward (Z.of_nat height) interval with
  | Some (JS.Num r) => r
  | _ => 0
  end.

(** The subsidies of the blocks at heights [0 .. n - 1] together. *)
Fixpoint total_subsidy (interval : Z) (n : nat) : Z :=
  match n with
  | O => 0
  | S n' => total_subsidy interval n' + subsidy interval n'
  end.

(** The reward of every block of era [k], the [k]-th span of
    [interval] heights. *)
Definition era_reward (k : nat) : Z :=
  if 52 <=? Z.of_nat k then 0
  else consensus.BASE_REWARD / 2 ^ Z.of_nat k.

(** The era rewards of eras [0 .. k - 1] together. *)
Fixpoint sum_eras (k : nat) : Z :=
  match k with
  | O => 0
  | S k' => sum_eras k' + era_reward k'
  end.

(** The proofs of a list of blocks together, each as the specification
    words it. *)
Definition chain_work {Solution : Type} (blocks : list (Block.t Solution))
  : Z :=
  fold_right (fun b acc => spec_proof (Block.bits b) + acc) 0 blocks.

(** A block for the examples: the header defaults with the compact
    target 0x1d00ffff. *)
Definition example_block : Block.t (list Z) :=
  Block.mk consensus.NULL_HASH 0 consensus.NULL_HASH consensus.NULL_HASH
    consensus.NULL_HASH consensus.NULL_HASH 0 0x1d00ffff
    (repeat x00 consensus.NONCE_SIZE) [].

(** The bytes [toRaw] writes for the entry the constructor builds, over
    the example codec. *)
Definition example_raw : list byte :=
  match @ChainEntry.toRaw_writes _ words_codec (ChainEntry.create nil) with
  | Some written => written
  | None => []
  end.

(** A snapshot for the examples: two names, each with a time to live,
    and a resource encoder that writes it as four bytes. *)
Definition example_root : gmap string Z :=
  {[ "org."%string := 3600; "com."%string := 7200 ]}.

Definition example_resource (ttl : Z) : option (list byte) :=
  if 0 <? ttl then Some (le_bytes 4 ttl) else None.

Definition example_keys : genesis.Keys :=
  {| genesis.investors := [x01]; genesis.foundation := [x02];
     genesis.claimant := [x03]; genesis.creators := [x04];
     genesis.airdrop := [x05] |}.

(** The hash of a transaction is not modelled; the examples tell
    transactions apart by their number of outputs. *)
Definition example_tx_hash (tx : genesis.TX) : string :=
  to_hex [byte_of_Z (Z.of_nat (length (genesis.outputs tx)))].

Definition example_registry : genesis.TX :=
  match genesis.registry example_resource example_tx_hash example_keys
          example_root None with
  | Some reg => reg
  | None => {| genesis.tx_version := 0; genesis.inputs := [];
               genesis.outputs := []; genesis.locktime := 0 |}
  end.

(* ===================================================================== *)
(** * Properties *)
(* ===================================================================== *)

(** ** Consensus constants *)

(** C1: GENESIS_REWARD is 1000 * COIN + 4_420_000, that is 1_004_420_000
    with COIN = 10^6. *)
Theorem GENESIS_REWARD_value :
  consensus.COIN = 10 ^ 6 /\
  consensus.GENESIS_REWARD = 1000 * consensus.COIN + 4420000 /\
  consensus.GENESIS_REWARD = 1004420000.
Proof. vm_compute. repeat split; reflexivity. Qed.

(** ** Big numbers *)

Lemma bitLength_pos (n : Z) : 0 < n -> BN.bitLength n = Z.log2 n + 1.
Proof.
  intros Hn. unfold BN.bitLength.
  destruct (Z.eqb_spec n 0); [lia |]. now rewrite Z.abs_eq by lia.
Qed.

(** A positive number has at most [k] bits exactly when it is below [2^k]. *)
Lemma bitLength_le_iff (n k : Z) :
  0 < n -> 0 <= k -> (BN.bitLength n <= k <-> n < 2 ^ k).
Proof.
  intros Hn Hk. rewrite bitLength_pos by assumption.
  split; intros Hle.
  - apply Z.log2_lt_pow2; lia.
  - apply Z.log2_lt_pow2 in Hle; lia.
Qed.

(** ** Proof of work *)

(** C3: verifyPOW succeeds exactly when the target is positive, has at
    most 256 bits, and the hash read as a big-endian integer is at most
    the target. *)
Theorem verifyPOW_iff (hash : list byte) (bits : Z) :
  consensus.verifyPOW hash bits = true <->
  0 < consensus.fromCompact bits /\
  BN.bitLength (consensus.fromCompact bits) <= 256 /\
  be_value hash <= consensus.fromCompact bits.
Proof.
  unfold consensus.verifyPOW, BN.isNeg, BN.isZero, BN.gt, BN.fromBE.
  set (target := consensus.fromCompact bits).
  destruct (Z.ltb_spec target 0) as [Hneg | Hneg]; simpl.
  { split; [discriminate | lia]. }
  destruct (Z.eqb_spec target 0) as [Hz | Hz].
  { split; [discriminate | lia]. }
  destruct (Z.ltb_spec 256 (BN.bitLength target)) as [Hlen | Hlen].
  { split; [discriminate | lia]. }
  destruct (Z.ltb_spec target (be_value hash)) as [Hgt | Hgt].
  { split; [discriminate | lia]. }
  split; [lia | reflexivity].
Qed.

(** ** Chainwork *)

Lemma MAX_CHAINWORK_value : ChainEntry.MAX_CHAINWORK = 2 ^ 256.
Proof. reflexivity. Qed.

(** [getProof] computes the specification's proof term: on a positive
    target the truncating division of bn.js is the floor. *)
Lemma getProof_spec {Solution : Type} (e : ChainEntry.t Solution) :
  ChainEntry.getProof e = spec_proof (ChainEntry.bits e).
Proof.
  unfold ChainEntry.getProof, spec_proof, BN.isNeg, BN.isZero, BN.div, BN.iaddn.
  rewrite MAX_CHAINWORK_value.
  set (target := consensus.fromCompact (ChainEntry.bits e)).
  destruct (Z.ltb_spec target 0), (Z.eqb_spec target 0),
    (Z.ltb_spec 0 target); simpl; try lia.
  apply Z.quot_div_nonneg; lia.
Qed.

(** C4: the chainwork of an entry with parent [p] is [p]'s chainwork plus
    [(1 << 256) / (target + 1)], the proof being zero for a target that is
    zero or negative; without a parent it is the proof alone.  The same
    holds of the chainwork [fromBlock] stores. *)
Theorem getChainwork_spec {Solution : Type}
    (e p : ChainEntry.t Solution) (block : Block.t Solution) :
  ChainEntry.getChainwork e (Some p)
    = ChainEntry.chainwork p + spec_proof (ChainEntry.bits e) /\
  ChainEntry.getChainwork e None = spec_proof (ChainEntry.bits e) /\
  ChainEntry.chainwork (ChainEntry.fromBlock block (Some p))
    = ChainEntry.chainwork p + spec_proof (Block.bits block) /\
  ChainEntry.chainwork (ChainEntry.fromBlock block None)
    = spec_proof (Block.bits block).
Proof.
  unfold ChainEntry.fromBlock, ChainEntry.getChainwork, BN.iadd; simpl.
  rewrite !getProof_spec; simpl. repeat split; lia.
Qed.

(** ** Block subsidy *)

Lemma u32_fixed (z : Z) : 0 <= z < 2 ^ 32 -> (JS.ToUint32 z =? z) = true.
Proof.
  intros Hz. unfold JS.ToUint32. rewrite Z.mod_small by assumption.
  apply Z.eqb_refl.
Qed.

Lemma getReward_in_range (h i : Z) :
  0 <= h < 2 ^ 32 -> 0 < i < 2 ^ 32 ->
  consensus.getReward h i =
    Some (JS.Num (if 52 <=? h / i then 0
                  else consensus.BASE_REWARD / 2 ^ (h / i))).
Proof.
  intros Hh Hi. unfold consensus.getReward, JS.floor_div.
  rewrite !u32_fixed by lia. simpl.
  destruct (Z.eqb_spec i 0); [lia |].
  now destruct (52 <=? h / i).
Qed.

(** C5 as stated, for every unsigned 32-bit interval, fails at
    [interval = 0]: with [height = 0] the quotient is not a number, and
    neither is the reward. *)
Lemma getReward_zero_interval :
  consensus.getReward 0 0 = Some JS.NaN /\
  consensus.getReward 0 0 <> Some (JS.Num (1000 * consensus.COIN)).
Proof. split; [reflexivity | discriminate]. Qed.

(** C5 (amended): for an unsigned 32-bit height [h] and a positive unsigned
    32-bit interval [i], the reward is the base reward [1000 * COIN]
    shifted right by [h / i], and zero once [h / i] reaches 52; so the
    reward is [1000 * COIN] at height 0, [500 * COIN] at height [i], and 0
    at height [52 * i] when that height is itself an unsigned 32-bit
    number. *)
Theorem getReward_schedule (h i : Z) :
  0 <= h < 2 ^ 32 -> 0 < i < 2 ^ 32 ->
  consensus.getReward h i =
    Some (JS.Num (if h / i <? 52
                  then Z.shiftr (1000 * consensus.COIN) (h / i) else 0)) /\
  consensus.getReward 0 i = Some (JS.Num (1000 * consensus.COIN)) /\
  consensus.getReward i i = Some (JS.Num (500 * consensus.COIN)) /\
  (52 * i < 2 ^ 32 -> consensus.getReward (52 * i) i = Some (JS.Num 0)).
Proof.
  intros Hh Hi.
  assert (Hq : 0 <= h / i) by (apply Z.div_pos; lia).
  repeat split.
  - rewrite getReward_in_range by assumption.
    rewrite Z.shiftr_div_pow2 by assumption.
    destruct (Z.leb_spec 52 (h / i)), (Z.ltb_spec (h / i) 52);
      try lia; reflexivity.
  - rewrite getReward_in_range by lia.
    rewrite Z.div_0_l by lia. reflexivity.
  - rewrite getReward_in_range by lia.
    rewrite Z.div_same by lia. reflexivity.
  - intros H52. rewrite getReward_in_range by lia.
    rewrite Z.div_mul by lia. reflexivity.
Qed.

(** The schedule at the halving interval of the main network. *)
Lemma getReward_schedule_witness :
  consensus.getReward 340000 170000 =
    Some (JS.Num (if 340000 / 170000 <? 52
                  then Z.shiftr (1000 * consensus.COIN) (340000 / 170000)
                  else 0)) /\
  consensus.getReward 0 170000 = Some (JS.Num (1000 * consensus.COIN)) /\
  consensus.getReward 170000 170000 = Some (JS.Num (500 * consensus.COIN)) /\
  (52 * 170000 < 2 ^ 32 ->
   consensus.getReward (52 * 170000) 170000 = Some (JS.Num 0)).
Proof. apply (getReward_schedule 340000 170000); lia. Defined.

(** ** The view *)

Section view_properties.

Variable fresh : Auction.t.
Variable db : list byte -> option Auction.t.

(** Whatever branch is taken, the auction returned is the one the view
    holds for the name hash afterwards. *)
Lemma getAuction_cached (view : View.t) (nameHash : list byte) :
  View.auctions (View.getAuction fresh view db nameHash).2
    !! to_hex nameHash
  = Some (View.getAuction fresh view db nameHash).1.
Proof.
  unfold View.getAuction.
  destruct (View.auctions view !! to_hex nameHash) eqn:Hc; simpl.
  - assumption.
  - destruct (db nameHash); simpl; apply lookup_insert_eq.
Qed.

(** The other entries of the view are left as they were. *)
Lemma getAuction_other (view : View.t) (nameHash : list byte) (k : string) :
  k <> to_hex nameHash ->
  View.auctions (View.getAuction fresh view db nameHash).2 !! k
  = View.auctions view !! k.
Proof.
  intros Hk. unfold View.getAuction.
  destruct (View.auctions view !! to_hex nameHash) eqn:Hc; simpl.
  - reflexivity.
  - destruct (db nameHash); simpl; now apply lookup_insert_ne.
Qed.

(** C7: getAuction returns the cached auction when the view has one for
    the name hash; otherwise it loads the auction from the store and
    caches it; and when the store has none it inserts and returns a fresh
    auction that carries the name hash. *)
Theorem getAuction_spec (view : View.t) (nameHash : list byte) :
  let key := to_hex nameHash in
  let result := View.getAuction fresh view db nameHash in
  (forall cache, View.auctions view !! key = Some cache ->
     result = (cache, view)) /\
  (forall auction, View.auctions view !! key = None ->
     db nameHash = Some auction ->
     result.1 = auction /\
     View.auctions result.2 = <[key := auction]> (View.auctions view)) /\
  (View.auctions view !! key = None -> db nameHash = None ->
     result.1 = Auction.set_nameHash fresh nameHash /\
     Auction.nameHash result.1 = nameHash /\
     View.auctions result.2 = <[key := result.1]> (View.auctions view)) /\
  View.auctions result.2 !! key = Some result.1.
Proof.
  intros key result. subst key result.
  split; [| split; [| split]].
  - intros cache Hc. unfold View.getAuction. now rewrite Hc.
  - intros auction Hc Hdb. unfold View.getAuction. rewrite Hc, Hdb.
    split; reflexivity.
  - intros Hc Hdb. unfold View.getAuction. rewrite Hc, Hdb.
    repeat split; reflexivity.
  - apply getAuction_cached.
Qed.

End view_properties.

(** The three branches on a view that holds the name hash, on a store
    that holds it, and on a store that does not. *)
Lemma getAuction_spec_witness :
  View.getAuction example_auction
    {| View.auctions := {[ to_hex [x01] := example_auction ]} |}
    (fun _ => None) [x01]
  = (example_auction,
     {| View.auctions := {[ to_hex [x01] := example_auction ]} |}) /\
  (View.getAuction example_auction View.empty
     (fun _ => Some example_auction) [x01]).1 = example_auction /\
  (View.getAuction example_auction View.empty (fun _ => None) [x01]).1
  = Auction.set_nameHash example_auction [x01].
Proof.
  split; [| split].
  - pose proof (getAuction_spec example_auction (fun _ => None)
                  {| View.auctions := {[ to_hex [x01] := example_auction ]} |}
                  [x01]) as (Hcached & _).
    apply Hcached. apply lookup_singleton_eq.
  - pose proof (getAuction_spec example_auction
                  (fun _ => Some example_auction) View.empty [x01])
      as (_ & Hload & _).
    apply (Hload example_auction); [apply lookup_empty | reflexivity].
  - pose proof (getAuction_spec example_auction (fun _ => None)
                  View.empty [x01]) as (_ & _ & Hfresh & _).
    apply Hfresh; [apply lookup_empty | reflexivity].
Defined.

(** ** The node client *)

Section client_properties.

Context {Entry Block TX Hash : Type}.
Variable txs : Block -> list TX.

(** C9: getEntry answers an entry exactly when the chain has it under that
    hash and it lies on the main chain, and that entry is the answer; in
    every other case the answer is null. *)
Theorem getEntry_main_chain_only
    (chain : NodeClient.Chain Entry Hash) (hash : Hash) :
  (forall entry,
     NodeClient.getEntry chain hash = Some entry <->
     NodeClient.chain_getEntry chain hash = Some entry /\
     NodeClient.chain_isMainChain chain entry = true) /\
  (NodeClient.getEntry chain hash = None <->
   forall entry,
     NodeClient.chain_getEntry chain hash = Some entry ->
     NodeClient.chain_isMainChain chain entry = false).
Proof.
  unfold NodeClient.getEntry.
  destruct (NodeClient.chain_getEntry chain hash) as [e |].
  - destruct (NodeClient.chain_isMainChain chain e) eqn:Hmain;
      simpl; split.
    + intros entry. split.
      * intros [= <-]. now split.
      * now intros [[= <-] _].
    + split; [discriminate |].
      intros Hall. specialize (Hall e eq_refl). congruence.
    + intros entry. split; [discriminate |].
      intros [[= <-] Htrue]. congruence.
    + split; [| reflexivity]. intros _ entry [= <-]. assumption.
  - split.
    + intros entry. split; [discriminate | now intros [? _]].
    + split; [discriminate | reflexivity].
Qed.

(** A listener of a client that is not opened emits nothing. *)
Lemma on_node_closed (c : NodeClient.t) (n : NodeClient.node_event Entry Block TX) :
  NodeClient.opened c = false -> NodeClient.on_node txs c n = [].
Proof. intros Hc. unfold NodeClient.on_node. now rewrite Hc. Qed.

(** The callbacks of [open] and [close] emit no chain event. *)
Lemma run_immediate_not_chain (l : list NodeClient.immediate)
    (e : NodeClient.event Entry TX) :
  In e (map NodeClient.run_immediate l) -> NodeClient.is_chain_event e = false.
Proof.
  rewrite in_map_iff. intros (i & <- & _). now destruct i.
Qed.

(** In any single step, a chain event is delivered only by an opened
    client. *)
Lemma step_chain_event (c c' : NodeClient.t)
    (i : NodeClient.input Entry Block TX)
    (out : list (NodeClient.event Entry TX)) (e : NodeClient.event Entry TX) :
  NodeClient.step txs c i = Some (c', out) -> In e out ->
  NodeClient.is_chain_event e = true ->
  NodeClient.opened c = true.
Proof.
  destruct i as [n | | |]; simpl.
  - intros [= <- <-]. unfold NodeClient.on_node.
    destruct (NodeClient.opened c); [reflexivity | intros []].
  - destruct (NodeClient.open c); simpl; [| discriminate].
    intros [= <- <-] [].
  - destruct (NodeClient.close c); simpl; [| discriminate].
    intros [= <- <-] [].
  - intros [= <- <-] Hin Hchain.
    apply run_immediate_not_chain in Hin. congruence.
Qed.

(** C10: a client that is not opened drops every connect, disconnect, tx
    and reset notification of the node: the step leaves the client as it
    is and delivers nothing.  Hence in every run, from any client and over
    any inputs, each 'block connect', 'block disconnect', 'tx' or
    'chain reset' event delivered to subscribers was delivered by a step
    that started with the client opened; a newly constructed client is
    not opened, and neither is a client that was just closed. *)
Theorem closed_client_is_silent :
  (forall (c : NodeClient.t) (n : NodeClient.node_event Entry Block TX),
     NodeClient.opened c = false ->
     NodeClient.step txs c (NodeClient.from_node n) = Some (c, [])) /\
  (forall (c : NodeClient.t) (ins : list (NodeClient.input Entry Block TX)),
     Forall (fun h : NodeClient.t * NodeClient.input Entry Block TX
                     * list (NodeClient.event Entry TX) =>
               forall e, In e h.2 -> NodeClient.is_chain_event e = true ->
                         NodeClient.opened h.1.1 = true)
            (NodeClient.exec txs c ins)) /\
  NodeClient.opened NodeClient.create = false /\
  (forall c c' : NodeClient.t,
     NodeClient.close c = Some c' -> NodeClient.opened c' = false).
Proof.
  repeat split.
  - intros c n Hc. simpl. now rewrite on_node_closed.
  - intros c ins. revert c.
    induction ins as [| i ins IH]; intros c; simpl; [constructor |].
    destruct (NodeClient.step txs c i) as [[c' out] |] eqn:Hstep;
      [| constructor].
    constructor; [| apply IH].
    simpl. intros e Hin Hchain. eapply step_chain_event; eassumption.
  - intros c c'. unfold NodeClient.close.
    destruct (NodeClient.opened c); simpl; [| discriminate].
    now intros [= <-].
Qed.

End client_properties.

(** A transaction announced to a client that was never opened. *)
Lemma closed_client_is_silent_witness :
  NodeClient.step (Entry := Z) (Block := list Z) (fun b => b)
    NodeClient.create (NodeClient.from_node (NodeClient.node_tx 7))
  = Some (NodeClient.create, []).
Proof.
  apply (closed_client_is_silent (Entry := Z) (Block := list Z) (TX := Z)
           (fun b => b)).
  reflexivity.
Defined.

(** ** Compact targets *)

(** *** The 32-bit operators on operands that are in range *)

Lemma ToUint32_small (z : Z) : 0 <= z < 2 ^ 32 -> JS.ToUint32 z = z.
Proof. intros Hz. unfold JS.ToUint32. now apply Z.mod_small. Qed.

Lemma ToInt32_small (z : Z) : - 2 ^ 31 <= z < 2 ^ 31 -> JS.ToInt32 z = z.
Proof.
  intros Hz. unfold JS.ToInt32. rewrite Z.mod_small; lia.
Qed.

Lemma ushr_small (a k : Z) :
  0 <= a < 2 ^ 32 -> 0 <= k < 32 -> JS.ushr a k = a / 2 ^ k.
Proof.
  intros Ha Hk. unfold JS.ushr.
  rewrite ToUint32_small, Z.mod_small by lia.
  apply Z.shiftr_div_pow2; lia.
Qed.

Lemma shl_small (a k : Z) :
  0 <= a -> 0 <= k < 32 -> a * 2 ^ k < 2 ^ 31 -> JS.shl a k = a * 2 ^ k.
Proof.
  intros Ha Hk Hlt. unfold JS.shl.
  assert (1 <= 2 ^ k) by (apply Z.pow_le_mono_r with (b := 0); lia).
  rewrite (ToInt32_small a) by nia.
  rewrite Z.mod_small, Z.shiftl_mul_pow2 by lia.
  apply ToInt32_small. nia.
Qed.

Lemma testbit_small (m k i : Z) :
  0 <= m < 2 ^ k -> k <= i -> Z.testbit m i = false.
Proof.
  intros Hm Hi.
  destruct (Z.ltb_spec k 0) as [Hk | Hk].
  { rewrite Z.pow_neg_r in Hm; lia. }
  rewrite <- (Z.mod_small m (2 ^ k)) by assumption.
  apply Z.mod_pow2_bits_high. lia.
Qed.

(** A number shifted past [k] bits and a number below [2^k] share no bit,
    so or-ing them adds them. *)
Lemma lor_disjoint (a m k : Z) :
  0 <= k -> 0 <= m < 2 ^ k -> Z.lor (a * 2 ^ k) m = a * 2 ^ k + m.
Proof.
  intros Hk Hm.
  assert (Hland : Z.land (a * 2 ^ k) m = 0).
  { apply Z.bits_inj'. intros i Hi.
    rewrite Z.land_spec, Z.bits_0.
    destruct (Z.ltb_spec i k) as [Hlt | Hge].
    - now rewrite Z.mul_pow2_bits_low.
    - rewrite (testbit_small m k i) by assumption. apply andb_false_r. }
  rewrite <- Z.lxor_lor by assumption.
  symmetry. now apply Z.add_nocarry_lxor.
Qed.

(** Bit 23 of a 24-bit number. *)
Lemma land_bit23 (a : Z) :
  0 <= a < 2 ^ 24 -> Z.land a 0x800000 = if a <? 2 ^ 23 then 0 else 2 ^ 23.
Proof.
  intros Ha.
  destruct (Z.ltb_spec a (2 ^ 23)) as [Hlt | Hge].
  - apply Z.bits_inj'. intros i Hi.
    rewrite Z.land_spec, Z.bits_0.
    change 0x800000 with (2 ^ 23). rewrite Z.pow2_bits_eqb by lia.
    destruct (Z.eqb_spec 23 i) as [<- | Hne].
    + rewrite (testbit_small a 23 23); [reflexivity | lia | lia].
    + apply andb_false_r.
  - replace a with (1 * 2 ^ 23 + (a - 2 ^ 23)) at 1 by lia.
    rewrite <- lor_disjoint by lia.
    change 0x800000 with (2 ^ 23).
    rewrite Z.land_lor_distr_l.
    replace (Z.land (a - 2 ^ 23) (2 ^ 23)) with 0.
    + rewrite Z.lor_0_r. change (1 * 2 ^ 23) with (2 ^ 23).
      apply Z.land_diag.
    + symmetry. apply Z.bits_inj'. intros i Hi.
      rewrite Z.land_spec, Z.bits_0, Z.pow2_bits_eqb by lia.
      destruct (Z.eqb_spec 23 i) as [<- | Hne].
      * rewrite (testbit_small (a - 2 ^ 23) 23 23); [reflexivity | lia | lia].
      * apply andb_false_r.
Qed.

(** *** Byte length *)

Lemma byteLength_bounds (x : Z) :
  0 < x ->
  1 <= BN.byteLength x /\
  2 ^ (8 * (BN.byteLength x - 1)) <= x < 2 ^ (8 * BN.byteLength x).
Proof.
  intros Hx. unfold BN.byteLength. rewrite bitLength_pos by assumption.
  pose proof (Z.log2_spec x Hx) as [Hlo Hhi].
  pose proof (Z.log2_nonneg x) as Hlog.
  set (b := Z.log2 x) in *.
  pose proof (Z.div_mod (b + 1 + 7) 8 ltac:(lia)) as Hdm.
  pose proof (Z.mod_pos_bound (b + 1 + 7) 8 ltac:(lia)) as Hmod.
  set (n := (b + 1 + 7) / 8) in *.
  split; [lia |]. split.
  - apply Z.le_trans with (2 ^ b); [| assumption].
    apply Z.pow_le_mono_r; lia.
  - apply Z.lt_le_trans with (2 ^ Z.succ b); [assumption |].
    apply Z.pow_le_mono_r; lia.
Qed.

Lemma byteLength_256 (x : Z) : 0 < x < 2 ^ 256 -> 1 <= BN.byteLength x <= 32.
Proof.
  intros [Hpos Hlt].
  destruct (byteLength_bounds x Hpos) as (H1 & Hlo & _).
  split; [assumption |].
  destruct (Z.leb_spec (BN.byteLength x) 32) as [| Hgt]; [assumption |].
  exfalso.
  assert (2 ^ 256 <= 2 ^ (8 * (BN.byteLength x - 1)))
    by (apply Z.pow_le_mono_r; lia).
  lia.
Qed.

(** *** The two conversions on positive numbers *)

Lemma leading_bytes_range (x : Z) : 0 < x -> 0 <= leading_bytes x < 2 ^ 24.
Proof.
  intros Hx. unfold leading_bytes.
  destruct (byteLength_bounds x Hx) as (H1 & Hlo & Hhi).
  set (n := BN.byteLength x) in *.
  destruct (Z.leb_spec n 3) as [Hn | Hn].
  - assert (Hsplit : 2 ^ 24 = 2 ^ (8 * n) * 2 ^ (8 * (3 - n))).
    { rewrite <- Z.pow_add_r by lia. f_equal. lia. }
    assert (0 < 2 ^ (8 * (3 - n))) by (apply Z.pow_pos_nonneg; lia).
    nia.
  - assert (Hpos : 0 < 2 ^ (8 * (n - 3))) by (apply Z.pow_pos_nonneg; lia).
    split; [apply Z.div_pos; lia |].
    apply Z.div_lt_upper_bound; [assumption |].
    rewrite <- Z.pow_add_r by lia.
    replace (8 * (n - 3) + 24) with (8 * n) by lia. assumption.
Qed.

Lemma toCompact_pos (x : Z) :
  0 < x < 2 ^ 256 ->
  consensus.toCompact x =
    if leading_bytes x <? 2 ^ 23
    then BN.byteLength x * 2 ^ 24 + leading_bytes x
    else (BN.byteLength x + 1) * 2 ^ 24 + leading_bytes x / 2 ^ 8.
Proof.
  intros Hx.
  pose proof (byteLength_256 x Hx) as Hn.
  pose proof (leading_bytes_range x ltac:(lia)) as Hm.
  unfold consensus.toCompact, BN.isZero, BN.isNeg, BN.toNumber.
  destruct (Z.eqb_spec x 0) as [| _]; [lia |].
  destruct (Z.ltb_spec x 0) as [| _]; [lia |].
  assert (Hmant :
    (if BN.byteLength x <=? 3
     then JS.shl x (8 * (3 - BN.byteLength x))
     else BN.ushrn x (8 * (BN.byteLength x - 3))) = leading_bytes x).
  { revert Hm. unfold leading_bytes.
    destruct (Z.leb_spec (BN.byteLength x) 3) as [Hle | Hgt]; intros Hm.
    - apply shl_small; lia.
    - unfold BN.ushrn. rewrite Z.sgn_pos, Z.abs_eq by lia.
      rewrite Z.shiftr_div_pow2 by lia. lia. }
  rewrite Hmant. clear Hmant.
  set (n := BN.byteLength x) in *. set (m := leading_bytes x) in *.
  unfold JS.band, JS.truthy.
  rewrite (ToInt32_small m), (ToInt32_small 0x800000) by lia.
  rewrite land_bit23 by assumption.
  destruct (Z.ltb_spec m (2 ^ 23)) as [Hlt | Hge]; simpl negb; cbv iota.
  - rewrite shl_small by lia.
    unfold JS.bor. rewrite !ToInt32_small by lia.
    rewrite lor_disjoint by lia.
    rewrite ushr_small by lia. apply Z.div_1_r.
  - assert (0 <= m / 2 ^ 8 < 2 ^ 16).
    { split; [apply Z.div_pos; lia | apply Z.div_lt_upper_bound; lia]. }
    rewrite (ushr_small m 8) by lia.
    rewrite shl_small by lia.
    unfold JS.bor. rewrite !ToInt32_small by lia.
    rewrite lor_disjoint by lia.
    rewrite ushr_small by lia. apply Z.div_1_r.
Qed.

Lemma fromCompact_pos (e m : Z) :
  1 <= e <= 127 -> 0 <= m < 2 ^ 23 ->
  consensus.fromCompact (e * 2 ^ 24 + m) =
    if e <=? 3 then m / 2 ^ (8 * (3 - e)) else m * 2 ^ (8 * (e - 3)).
Proof.
  intros He Hm. unfold consensus.fromCompact.
  set (c := e * 2 ^ 24 + m).
  assert (Hc : 0 < c < 2 ^ 31) by (subst c; lia).
  destruct (Z.eqb_spec c 0) as [| _]; [lia |].
  assert (Hexp : JS.ushr c 24 = e).
  { rewrite ushr_small by lia. subst c.
    rewrite Z.div_add_l, Z.div_small by lia. lia. }
  assert (Hneg : JS.band (JS.ushr c 23) 1 = 0).
  { rewrite ushr_small by lia. subst c.
    replace (e * 2 ^ 24 + m) with ((2 * e) * 2 ^ 23 + m) by lia.
    rewrite Z.div_add_l, Z.div_small, Z.add_0_r by lia.
    unfold JS.band. rewrite !ToInt32_small by lia.
    change 1 with (Z.ones 1). rewrite Z.land_ones by lia.
    change (2 ^ 1) with 2. rewrite Z.mul_comm. apply Z.mod_mul. lia. }
  assert (Hmant : JS.band c 0x7fffff = m).
  { unfold JS.band. rewrite !ToInt32_small by lia.
    change 0x7fffff with (Z.ones 23). rewrite Z.land_ones by lia. subst c.
    replace (e * 2 ^ 24 + m) with (m + (2 * e) * 2 ^ 23) by lia.
    rewrite Z.mod_add by lia. apply Z.mod_small. lia. }
  rewrite Hexp, Hneg, Hmant. simpl JS.truthy. cbv iota.
  destruct (Z.leb_spec e 3) as [Hle | Hgt].
  - apply ushr_small; lia.
  - unfold BN.iushln. rewrite Z.abs_eq, Z.shiftl_mul_pow2 by lia.
    destruct (Z.eq_dec m 0) as [-> | Hnz]; [reflexivity |].
    rewrite Z.sgn_pos by lia. apply Z.mul_1_l.
Qed.

(** *** Round trip *)

Lemma pow2_pos (k : Z) : 0 <= k -> 0 < 2 ^ k.
Proof. intros Hk. apply Z.pow_pos_nonneg; lia. Qed.

(** Dropping and restoring [j] low bytes of [m * 256^k] changes nothing
    when [j <= k]. *)
Lemma drop_low_bytes (m k j : Z) :
  0 <= j <= k ->
  m * 2 ^ (8 * k) / 2 ^ (8 * j) * 2 ^ (8 * j) = m * 2 ^ (8 * k).
Proof.
  intros Hj.
  replace (8 * k) with (8 * (k - j) + 8 * j) by lia.
  rewrite Z.pow_add_r by lia.
  pose proof (pow2_pos (8 * j) ltac:(lia)).
  rewrite Z.mul_assoc, Z.div_mul by lia. reflexivity.
Qed.

(** A number of [n] bytes with a mantissa below [2^23] has at least
    [n - 3] zero low bytes. *)
Lemma mantissa_shift_lower (m k n : Z) :
  0 < m < 2 ^ 23 -> 0 <= k -> 2 ^ (8 * (n - 1)) <= m * 2 ^ (8 * k) ->
  n - 3 <= k.
Proof.
  intros Hm Hk Hlo.
  destruct (Z.leb_spec (n - 3) k) as [| Hlt]; [assumption | exfalso].
  replace (8 * (n - 1)) with (8 * (n - 1 - k) + 8 * k) in Hlo by lia.
  rewrite Z.pow_add_r in Hlo by lia.
  pose proof (pow2_pos (8 * k) ltac:(lia)) as Hp.
  assert (2 ^ 24 <= 2 ^ (8 * (n - 1 - k)))
    by (apply Z.pow_le_mono_r; lia).
  nia.
Qed.

(** If moreover bit 23 of its three leading bytes is set, it has at
    least [n - 2] zero low bytes. *)
Lemma mantissa_shift_lower_carry (m k n : Z) :
  0 < m < 2 ^ 23 -> 0 <= k -> 3 <= n ->
  2 ^ 23 <= m * 2 ^ (8 * k) / 2 ^ (8 * (n - 3)) ->
  n - 2 <= k.
Proof.
  intros Hm Hk Hn Hlo.
  destruct (Z.leb_spec (n - 2) k) as [| Hlt]; [assumption | exfalso].
  pose proof (pow2_pos (8 * k) ltac:(lia)) as Hp.
  pose proof (pow2_pos (8 * (n - 3 - k)) ltac:(lia)) as Hq.
  replace (8 * (n - 3)) with (8 * k + 8 * (n - 3 - k)) in Hlo by lia.
  rewrite Z.pow_add_r in Hlo by lia.
  rewrite <- Z.div_div in Hlo by lia.
  rewrite Z.div_mul in Hlo by lia.
  assert (m / 2 ^ (8 * (n - 3 - k)) <= m).
  { apply Z.div_le_upper_bound; [lia | nia]. }
  lia.
Qed.

(** C2: a positive 256-bit value with at most 23 bits of mantissa, that
    is, a mantissa below 2^23 followed by whole zero bytes, is preserved by
    toCompact followed by fromCompact; and the compact value 0x1d00ffff is
    preserved by fromCompact followed by toCompact. *)
Theorem compact_roundtrip (x : Z) :
  0 < x < 2 ^ 256 -> fits_mantissa x ->
  consensus.fromCompact (consensus.toCompact x) = x /\
  consensus.toCompact (consensus.fromCompact 0x1d00ffff) = 0x1d00ffff.
Proof.
  intros Hx (m & k & Hm & Hk & Heq).
  split; [| vm_compute; reflexivity].
  rewrite toCompact_pos by assumption.
  pose proof (byteLength_256 x Hx) as Hn.
  destruct (byteLength_bounds x ltac:(lia)) as (_ & Hlo & _).
  pose proof (leading_bytes_range x ltac:(lia)) as Hlb.
  revert Hlb. unfold leading_bytes.
  set (n := BN.byteLength x) in *.
  destruct (Z.leb_spec n 3) as [Hle | Hgt]; intros Hlb.
  - (* at most three bytes: the mantissa is [x] shifted left *)
    pose proof (pow2_pos (8 * (3 - n)) ltac:(lia)) as Hp.
    destruct (Z.ltb_spec (x * 2 ^ (8 * (3 - n))) (2 ^ 23)) as [Hlt | Hge].
    + rewrite fromCompact_pos by lia.
      destruct (Z.leb_spec n 3); [| lia].
      apply Z.div_mul. lia.
    + assert (0 <= x * 2 ^ (8 * (3 - n)) / 2 ^ 8 < 2 ^ 16).
      { split; [apply Z.div_pos; lia | apply Z.div_lt_upper_bound; lia]. }
      rewrite fromCompact_pos by lia.
      destruct (Z.leb_spec (n + 1) 3) as [Hle' | Hgt'].
      * rewrite Z.div_div by lia. rewrite <- Z.pow_add_r by lia.
        replace (8 + 8 * (3 - (n + 1))) with (8 * (3 - n)) by lia.
        apply Z.div_mul. lia.
      * assert (n = 3) as Hn3 by lia. rewrite Hn3 in *.
        change (2 ^ (8 * (3 - 3))) with 1 in *. rewrite Z.mul_1_r in *.
        assert (Hk1 : 3 - 2 <= k).
        { apply (mantissa_shift_lower_carry m k 3); try lia.
          rewrite <- Heq. change (2 ^ (8 * (3 - 3))) with 1.
          rewrite Z.div_1_r. assumption. }
        rewrite Heq.
        replace (8 * (3 + 1 - 3)) with (8 * 1) by lia.
        change (2 ^ 8) with (2 ^ (8 * 1)).
        apply drop_low_bytes. lia.
  - (* more than three bytes: the mantissa is [x] shifted right *)
    pose proof (pow2_pos (8 * (n - 3)) ltac:(lia)) as Hp.
    assert (Hk3 : n - 3 <= k).
    { apply (mantissa_shift_lower m k n); lia. }
    destruct (Z.ltb_spec (x / 2 ^ (8 * (n - 3))) (2 ^ 23)) as [Hlt | Hge].
    + rewrite fromCompact_pos by lia.
      destruct (Z.leb_spec n 3); [lia |].
      rewrite Heq. apply drop_low_bytes. lia.
    + assert (0 <= x / 2 ^ (8 * (n - 3)) / 2 ^ 8 < 2 ^ 16).
      { split; [apply Z.div_pos; lia | apply Z.div_lt_upper_bound; lia]. }
      rewrite fromCompact_pos by lia.
      destruct (Z.leb_spec (n + 1) 3); [lia |].
      assert (Hk2 : n - 2 <= k).
      { apply (mantissa_shift_lower_carry m k n); try lia.
        rewrite <- Heq. assumption. }
      rewrite Z.div_div by lia. rewrite <- Z.pow_add_r by lia.
      replace (8 * (n - 3) + 8) with (8 * (n - 2)) by lia.
      replace (8 * (n + 1 - 3)) with (8 * (n - 2)) by lia.
      rewrite Heq. apply drop_low_bytes. lia.
Qed.

(** The target of the compact value 0x1d00ffff. *)
Lemma compact_roundtrip_witness :
  consensus.fromCompact (consensus.toCompact (0xffff * 2 ^ 208))
    = 0xffff * 2 ^ 208 /\
  consensus.toCompact (consensus.fromCompact 0x1d00ffff) = 0x1d00ffff.
Proof.
  apply (compact_roundtrip (0xffff * 2 ^ 208)).
  - lia.
  - exists 0xffff, 26. repeat split; lia.
Defined.

(** The zero bytes below the mantissa must be whole bytes: [0xfffffe] is
    [0x7fffff] shifted by one bit, and toCompact keeps its two leading
    bytes only. *)
Example compact_bit_shift :
  consensus.fromCompact (consensus.toCompact 0xfffffe) = 0xffff00.
Proof. vm_compute. reflexivity. Qed.

(** ** Bytes and hexadecimal strings *)

Lemma Z_of_byte_range (b : byte) : 0 <= Z_of_byte b < 256.
Proof.
  unfold Z_of_byte. pose proof (Byte.to_N_bounded b). lia.
Qed.

Lemma Z_of_byte_of_Z (z : Z) : Z_of_byte (byte_of_Z z) = z mod 256.
Proof.
  unfold Z_of_byte, byte_of_Z.
  pose proof (Z.mod_pos_bound z 256 ltac:(lia)) as Hm.
  destruct (Byte.of_N (Z.to_N (z mod 256))) as [b |] eqn:Hb.
  - apply Byte.to_of_N in Hb. rewrite Hb. lia.
  - apply Byte.of_N_None_iff in Hb. lia.
Qed.

Lemma byte_of_Z_of_byte (b : byte) : byte_of_Z (Z_of_byte b) = b.
Proof.
  unfold byte_of_Z. rewrite Z.mod_small by apply Z_of_byte_range.
  unfold Z_of_byte. rewrite N2Z.id, Byte.of_to_N. reflexivity.
Qed.

Lemma length_le_bytes (n : nat) (v : Z) : length (le_bytes n v) = n.
Proof.
  revert v. induction n as [| n IH]; intros v; simpl; [| rewrite IH]; reflexivity.
Qed.

(** Reading back the [n] low bytes of [v] gives [v] modulo [256^n]. *)
Lemma le_value_le_bytes (n : nat) (v : Z) :
  le_value (le_bytes n v) = v mod 256 ^ Z.of_nat n.
Proof.
  revert v. induction n as [| n IH]; intros v.
  - simpl. now rewrite Z.mod_1_r.
  - cbn [le_bytes le_value]. rewrite IH, Z_of_byte_of_Z.
    rewrite Nat2Z.inj_succ, Z.pow_succ_r by lia.
    rewrite Z.rem_mul_r; [reflexivity | lia |].
    apply Z.pow_pos_nonneg; lia.
Qed.

Lemma le_value_le_bytes_small (n : nat) (v : Z) :
  0 <= v < 256 ^ Z.of_nat n -> le_value (le_bytes n v) = v.
Proof.
  intros Hv. rewrite le_value_le_bytes. now apply Z.mod_small.
Qed.

Lemma be_value_be_bytes_small (n : nat) (v : Z) :
  0 <= v < 256 ^ Z.of_nat n -> be_value (be_bytes n v) = v.
Proof.
  intros Hv. unfold be_value, be_bytes.
  rewrite rev_involutive. now apply le_value_le_bytes_small.
Qed.

Lemma length_be_bytes (n : nat) (v : Z) : length (be_bytes n v) = n.
Proof. unfold be_bytes. rewrite length_rev. apply length_le_bytes. Qed.

(** A lowercase hexadecimal digit is the digit of its value. *)
Lemma hex_val_lower (c : ascii) :
  is_lower_hex_char c = true ->
  exists h, hex_val c = Some h /\ 0 <= h < 16 /\ hex_char h = c.
Proof.
  unfold is_lower_hex_char, hex_val, hex_char.
  pose proof (ascii_N_embedding c) as Hemb.
  set (n := Z.of_N (N_of_ascii c)).
  assert (Hn : N_of_ascii c = Z.to_N n) by (subst n; now rewrite N2Z.id).
  destruct (Z.leb_spec 48 n), (Z.leb_spec n 57); simpl.
  - intros _. exists (n - 48). repeat split; try lia.
    destruct (Z.ltb_spec (n - 48) 10); [| lia].
    replace (48 + (n - 48)) with n by lia. now rewrite <- Hn.
  - destruct (Z.leb_spec 97 n), (Z.leb_spec n 102); simpl; try discriminate.
    intros _. exists (n - 87). repeat split; try lia.
    destruct (Z.ltb_spec (n - 87) 10); [lia |].
    replace (87 + (n - 87)) with n by lia. now rewrite <- Hn.
  - destruct (Z.leb_spec 97 n), (Z.leb_spec n 102); simpl; try discriminate; lia.
  - destruct (Z.leb_spec 97 n), (Z.leb_spec n 102); simpl; try discriminate; lia.
Qed.

(** Decoding a string of lowercase hexadecimal digits of even length and
    encoding the bytes again gives the string back. *)
Lemma from_hex_lower (n : nat) (s : string) :
  String.length s = (2 * n)%nat -> is_lower_hex s = true ->
  exists bs, from_hex s = Some bs /\ length bs = n /\ to_hex bs = s.
Proof.
  revert s. induction n as [| n IH]; intros s Hlen Hhex.
  - destruct s; [| discriminate]. exists []. repeat split.
  - destruct s as [| c1 [| c2 s]]; try discriminate.
    + simpl in Hlen. lia.
    + simpl in Hhex. apply andb_prop in Hhex as [H1 Hhex].
      apply andb_prop in Hhex as [H2 Hhex].
      destruct (hex_val_lower c1 H1) as (h & Hh & Hhr & Hhc).
      destruct (hex_val_lower c2 H2) as (l & Hl & Hlr & Hlc).
      destruct (IH s) as (bs & Hbs & Hblen & Hbhex); [simpl in Hlen; lia | assumption |].
      exists (byte_of_Z (16 * h + l) :: bs).
      cbn [from_hex]. rewrite Hh, Hl, Hbs.
      repeat split; [simpl; now rewrite Hblen |].
      cbn [to_hex]. rewrite Z_of_byte_of_Z, Z.mod_small by lia.
      replace ((16 * h + l) / 16) with h
        by (apply Z.div_unique with l; lia).
      replace ((16 * h + l) mod 16) with l
        by (apply Z.mod_unique with h; lia).
      now rewrite Hhc, Hlc, Hbhex.
Qed.

Lemma writeHash_hash (s : string) :
  is_hash s = true ->
  exists bs, bio.writeHash s = Some bs /\ length bs = 32%nat /\ to_hex bs = s.
Proof.
  unfold is_hash, bio.writeHash. intros Hs.
  apply andb_prop in Hs as [Hlen Hhex]. rewrite Hlen.
  apply Z.eqb_eq in Hlen. apply (from_hex_lower 32); [lia | assumption].
Qed.

(** Encoding bytes gives a hash string. *)
Lemma to_hex_is_lower_hex (bs : list byte) : is_lower_hex (to_hex bs) = true.
Proof.
  induction bs as [| b bs IH]; [reflexivity |].
  cbn [to_hex is_lower_hex]. rewrite IH, andb_true_r.
  pose proof (Z_of_byte_range b) as Hb.
  assert (Hd : forall d, 0 <= d < 16 -> is_lower_hex_char (hex_char d) = true).
  { intros d Hd. unfold is_lower_hex_char, hex_char.
    destruct (Z.ltb_spec d 10); rewrite N_ascii_embedding by lia;
      rewrite Z2N.id by lia.
    - destruct (Z.leb_spec 48 (48 + d)), (Z.leb_spec (48 + d) 57);
        try lia; reflexivity.
    - destruct (Z.leb_spec 48 (87 + d)), (Z.leb_spec (87 + d) 57),
        (Z.leb_spec 97 (87 + d)), (Z.leb_spec (87 + d) 102);
        try lia; reflexivity. }
  rewrite !Hd; [reflexivity | |].
  - apply Z.mod_pos_bound; lia.
  - split; [apply Z.div_pos; lia | apply Z.div_lt_upper_bound; lia].
Qed.

(** ** Readers *)

Lemma readBytes_app (n : nat) (bs rest : list byte) :
  length bs = n -> bio.readBytes n (bs ++ rest) = Some (bs, rest).
Proof.
  intros <-. unfold bio.readBytes.
  rewrite length_app.
  destruct (Nat.leb_spec (length bs) (length bs + length rest)); [| lia].
  rewrite take_app_length, drop_app_length. reflexivity.
Qed.

Lemma readU32_app (v : Z) (rest : list byte) :
  0 <= v < 2 ^ 32 ->
  bio.readU32 (le_bytes 4 v ++ rest) = Some (v, rest).
Proof.
  intros Hv. unfold bio.readU32, bio.bind.
  rewrite readBytes_app by apply length_le_bytes.
  unfold bio.ret. now rewrite le_value_le_bytes_small.
Qed.

Lemma readU8_app (v : Z) (rest : list byte) :
  0 <= v < 256 ->
  bio.readU8 (le_bytes 1 v ++ rest) = Some (v, rest).
Proof.
  intros Hv. unfold bio.readU8, bio.bind.
  rewrite readBytes_app by apply length_le_bytes.
  unfold bio.ret. now rewrite le_value_le_bytes_small.
Qed.

Lemma readU64_app (v : Z) (rest : list byte) :
  0 <= v < 2 ^ 53 ->
  bio.readU64 (le_bytes 8 v ++ rest) = Some (v, rest).
Proof.
  intros Hv. unfold bio.readU64, bio.bind.
  rewrite readBytes_app by apply length_le_bytes.
  rewrite le_value_le_bytes_small by (change (256 ^ Z.of_nat 8) with (2 ^ 64); lia).
  destruct (Z.ltb_spec v (2 ^ 53)); [reflexivity | lia].
Qed.

Lemma readHash_app (bs rest : list byte) :
  length bs = 32%nat -> bio.readHash (bs ++ rest) = Some (to_hex bs, rest).
Proof.
  intros Hlen. unfold bio.readHash, bio.bind.
  now rewrite readBytes_app.
Qed.

Lemma readBytes_all (n : nat) (bs : list byte) :
  length bs = n -> bio.readBytes n bs = Some (bs, []).
Proof.
  intros Hlen. rewrite <- (app_nil_r bs) at 1. now apply readBytes_app.
Qed.

Lemma bind_some {A B : Type} (m : bio.reader A) (k : A -> bio.reader B)
    (bs rest : list byte) (a : A) :
  m bs = Some (a, rest) -> bio.bind m k bs = k a rest.
Proof. intros Hm. unfold bio.bind. now rewrite Hm. Qed.

(** ** The chain entry codec *)

Lemma writeU64_safe (v : Z) :
  0 <= v < 2 ^ 53 -> bio.writeU64 v = Some (le_bytes 8 v).
Proof.
  intros Hv. unfold bio.writeU64.
  destruct (Z.leb_spec 0 v), (Z.ltb_spec v (2 ^ 53)); try lia. reflexivity.
Qed.

Lemma toArrayLike_be_u256 (v : Z) :
  0 <= v < 2 ^ 256 -> BN.toArrayLike_be v 32 = Some (be_bytes 32 v).
Proof.
  intros Hv. unfold BN.toArrayLike_be.
  rewrite Z.abs_eq by lia.
  destruct (Z.eq_dec v 0) as [-> | Hnz]; [reflexivity |].
  pose proof (byteLength_256 v ltac:(lia)).
  destruct (Z.leb_spec (BN.byteLength v) (Z.of_nat 32)); [reflexivity | lia].
Qed.

Section entry_codec.

Context {Solution : Type} `{SolutionCodec Solution}.

(** The bytes [toRaw] writes for a well-formed entry, field by field, and
    what [fromRaw] reads back from them. *)
Lemma toRaw_writes_layout (e : ChainEntry.t Solution) :
  sol_codec_laws Solution -> ChainEntry.well_formed e ->
  exists hash prevBlock merkleRoot witnessRoot treeRoot : list byte,
    ChainEntry.toRaw_writes e =
      Some (hash ++ le_bytes 4 (ChainEntry.height e)
              ++ le_bytes 4 (ChainEntry.version e)
              ++ prevBlock ++ merkleRoot ++ witnessRoot ++ treeRoot
              ++ le_bytes 8 (ChainEntry.time e)
              ++ le_bytes 4 (ChainEntry.bits e)
              ++ ChainEntry.nonce e
              ++ sol_toWriter (ChainEntry.solution e)
              ++ be_bytes 32 (ChainEntry.chainwork e)) /\
    (length hash = 32%nat /\ to_hex hash = ChainEntry.hash e) /\
    (length prevBlock = 32%nat /\ to_hex prevBlock = ChainEntry.prevBlock e) /\
    (length merkleRoot = 32%nat /\
     to_hex merkleRoot = ChainEntry.merkleRoot e) /\
    (length witnessRoot = 32%nat /\
     to_hex witnessRoot = ChainEntry.witnessRoot e) /\
    (length treeRoot = 32%nat /\ to_hex treeRoot = ChainEntry.treeRoot e).
Proof.
  intros _ (Hh & Hp & Hm & Hw & Hr & _ & _ & Ht & _ & _ & _ & Hc).
  destruct (writeHash_hash _ Hh) as (h & Eh & Lh & Xh).
  destruct (writeHash_hash _ Hp) as (p & Ep & Lp & Xp).
  destruct (writeHash_hash _ Hm) as (m & Em & Lm & Xm).
  destruct (writeHash_hash _ Hw) as (w & Ew & Lw & Xw).
  destruct (writeHash_hash _ Hr) as (r & Er & Lr & Xr).
  exists h, p, m, w, r.
  unfold ChainEntry.toRaw_writes.
  rewrite Eh, Ep, Em, Ew, Er, (writeU64_safe _ Ht), (toArrayLike_be_u256 _ Hc).
  repeat split; assumption.
Qed.

(** The reads of [fromRaw] undo the writes of [toRaw]; the writes fill
    232 bytes and the solution. *)
Lemma toRaw_writes_fromRaw (e : ChainEntry.t Solution) :
  sol_codec_laws Solution -> ChainEntry.well_formed e ->
  exists written,
    ChainEntry.toRaw_writes e = Some written /\
    ChainEntry.fromRaw written = Some e /\
    Z.of_nat (length written) = 232 + sol_getSize (ChainEntry.solution e).
Proof.
  intros Hlaws Hwf.
  destruct (toRaw_writes_layout e Hlaws Hwf)
    as (h & p & m & w & r & Hraw & (Lh & Xh) & (Lp & Xp) & (Lm & Xm)
        & (Lw & Xw) & (Lr & Xr)).
  destruct Hwf as (_ & _ & _ & _ & _ & Hheight & Hversion & Htime & Hbits
                   & Hnonce & Hsol & Hcw).
  destruct Hlaws as [Hread Hsize].
  eexists. split; [exact Hraw |]. split.
  - unfold ChainEntry.fromRaw, ChainEntry.read.
    rewrite (bind_some _ _ _ _ _ (readHash_app h _ Lh)).
    rewrite (bind_some _ _ _ _ _ (readU32_app _ _ Hheight)).
    rewrite (bind_some _ _ _ _ _ (readU32_app _ _ Hversion)).
    rewrite (bind_some _ _ _ _ _ (readHash_app p _ Lp)).
    rewrite (bind_some _ _ _ _ _ (readHash_app m _ Lm)).
    rewrite (bind_some _ _ _ _ _ (readHash_app w _ Lw)).
    rewrite (bind_some _ _ _ _ _ (readHash_app r _ Lr)).
    rewrite (bind_some _ _ _ _ _ (readU64_app _ _ Htime)).
    rewrite (bind_some _ _ _ _ _ (readU32_app _ _ Hbits)).
    rewrite (bind_some _ _ _ _ _ (readBytes_app _ _ _ Hnonce)).
    rewrite (bind_some _ _ _ _ _ (Hread _ _ Hsol)).
    rewrite (bind_some _ _ _ _ _
               (readBytes_all 32 _ (length_be_bytes 32 _))).
    unfold bio.ret, BN.fromBE.
    rewrite be_value_be_bytes_small by exact Hcw.
    rewrite Xh, Xp, Xm, Xw, Xr. now destruct e.
  - rewrite !length_app, !length_le_bytes, length_be_bytes.
    rewrite Lh, Lp, Lm, Lw, Lr, Hnonce.
    rewrite <- Hsize. unfold consensus.NONCE_SIZE. lia.
Qed.

(** [getSize] counts [HEADER_SIZE = 196] bytes for the header fields, of
    which [toRaw] writes 164: the writer is left 32 bytes short and
    [render] fails. *)
Lemma toRaw_short_write (e : ChainEntry.t Solution) :
  sol_codec_laws Solution -> ChainEntry.well_formed e ->
  ChainEntry.toRaw e = None.
Proof.
  intros Hlaws Hwf.
  destruct (toRaw_writes_fromRaw e Hlaws Hwf) as (written & Hw & _ & Hlen).
  unfold ChainEntry.toRaw. rewrite Hw. simpl.
  unfold bio.render, ChainEntry.getSize, consensus.HEADER_SIZE.
  destruct (Z.eqb_spec (Z.of_nat (length written))
              (36 + 196 + sol_getSize (ChainEntry.solution e) + 32));
    [lia | reflexivity].
Qed.

End entry_codec.

(** *** The example codec obeys the laws *)

Lemma read_words_app (s : list Z) (rest : list byte) :
  Forall (fun w => 0 <= w < 2 ^ 32) s ->
  read_words (length s) (flat_map bio.writeU32 s ++ rest) = Some (s, rest).
Proof.
  induction 1 as [| w s Hw _ IH]; [reflexivity |].
  cbn [length read_words flat_map]. unfold bio.writeU32 at 1.
  rewrite <- app_assoc.
  rewrite (bind_some _ _ _ _ _ (readU32_app _ _ Hw)).
  now rewrite (bind_some _ _ _ _ _ IH).
Qed.

Lemma length_flat_map_writeU32 (s : list Z) :
  length (flat_map bio.writeU32 s) = (4 * length s)%nat.
Proof.
  induction s as [| w s IH]; [reflexivity |].
  cbn [flat_map]. rewrite length_app, IH.
  unfold bio.writeU32. rewrite length_le_bytes. simpl. lia.
Qed.

Lemma words_codec_laws : @sol_codec_laws (list Z) words_codec.
Proof.
  split.
  - intros s rest [Hlen Hall]. cbn [sol_fromReader sol_toWriter words_codec].
    assert (Hr : 0 <= Z.of_nat (length s) < 256) by lia.
    unfold bio.writeU8. rewrite <- app_assoc.
    rewrite (bind_some _ _ _ _ _ (readU8_app _ _ Hr)).
    rewrite Nat2Z.id. now apply read_words_app.
  - intros s. cbn [sol_getSize sol_toWriter words_codec].
    rewrite length_app, length_flat_map_writeU32.
    unfold bio.writeU8. rewrite length_le_bytes. lia.
Qed.

(** The entry the constructor builds is well formed. *)
Lemma create_well_formed :
  @ChainEntry.well_formed _ words_codec (ChainEntry.create (nil : list Z)).
Proof.
  unfold ChainEntry.well_formed. cbn.
  repeat split; try reflexivity; try lia; constructor.
Qed.

(** C6, evaluated at the entry the constructor builds: the serialization
    should have the layout hash | height | version | prevBlock | merkleRoot
    | witnessRoot | treeRoot | time | bits | nonce | solution | chainwork
    and decode to the entry.  The writes of toRaw do give such bytes, 233
    of them, and fromRaw reads the entry back from them; but getSize is
    265, so toRaw, which renders a writer of that size, fails. *)
Example toRaw_default_entry :
  let e := ChainEntry.create (nil : list Z) in
  @ChainEntry.toRaw _ words_codec e = None /\
  @ChainEntry.getSize _ words_codec e = 265 /\
  exists written,
    @ChainEntry.toRaw_writes _ words_codec e = Some written /\
    length written = 233%nat /\
    @ChainEntry.fromRaw _ words_codec written = Some e.
Proof.
  cbv zeta. split; [vm_compute; reflexivity |].
  split; [reflexivity |].
  eexists. split; [vm_compute; reflexivity |].
  split; vm_compute; reflexivity.
Qed.

(** ** The genesis claimer *)

(** *** The order of [sort()] *)

Lemma ascii_compare_Lt (a b : ascii) :
  Ascii.compare a b = Lt <-> (N_of_ascii a < N_of_ascii b)%N.
Proof. unfold Ascii.compare. apply N.compare_lt_iff. Qed.

Lemma ascii_compare_Eq (a b : ascii) : Ascii.compare a b = Eq <-> a = b.
Proof.
  split; [apply Ascii.compare_eq_iff |].
  intros ->. unfold Ascii.compare. apply N.compare_refl.
Qed.

Lemma string_leb_trans (a b c : string) :
  String.leb a b = true -> String.leb b c = true -> String.leb a c = true.
Proof.
  unfold String.leb. revert b c.
  induction a as [| x a IH]; intros [| y b] [| z c]; simpl;
    try reflexivity; try discriminate.
  destruct (Ascii.compare x y) eqn:Hxy; try discriminate;
    destruct (Ascii.compare y z) eqn:Hyz; try discriminate;
    intros Hab Hbc.
  - apply ascii_compare_Eq in Hxy, Hyz. subst.
    rewrite (proj2 (ascii_compare_Eq z z) eq_refl). now apply (IH b c).
  - apply ascii_compare_Eq in Hxy. subst. now rewrite Hyz.
  - apply ascii_compare_Eq in Hyz. subst. now rewrite Hxy.
  - apply ascii_compare_Lt in Hxy. apply ascii_compare_Lt in Hyz.
    assert (Hxz : Ascii.compare x z = Lt)
      by (apply ascii_compare_Lt; eapply N.lt_trans; eassumption).
    now rewrite Hxz.
Qed.

#[local] Instance string_le_transitive : Transitive genesis.string_le.
Proof. intros a b c. apply string_leb_trans. Qed.

#[local] Instance string_le_total : Total genesis.string_le.
Proof. intros a b. apply String.leb_total. Qed.

(** The names are the keys of the snapshot in ascending order. *)
Lemma names_sorted (root_keys : list string) :
  StronglySorted genesis.string_le (genesis.names root_keys) /\
  Permutation (genesis.names root_keys) root_keys.
Proof.
  split.
  - apply StronglySorted_merge_sort; typeclasses eauto.
  - apply merge_sort_Permutation.
Qed.

(** *** The raw name *)

Lemma slice_0_m1_dot (raw : string) :
  genesis.slice_0_m1 (raw ++ ".") = raw.
Proof.
  unfold genesis.slice_0_m1.
  induction raw as [| c raw IH]; [reflexivity |].
  change (String c raw +:+ ".") with (String c (raw +:+ ".")).
  cbn [String.length].
  replace (S (String.length (raw ++ ".")) - 1)%nat
    with (S (String.length (raw ++ ".") - 1))%nat.
  - cbn [substring]. now rewrite IH.
  - clear IH. destruct raw; simpl; lia.
Qed.

(** *** The outputs *)

Lemma push_claims_map (keys : genesis.Keys) (outs : list genesis.Output)
    (ns : list string) :
  genesis.push_claims keys outs ns
  = outs ++ map (genesis.claim_output keys) ns.
Proof.
  unfold genesis.push_claims. revert outs.
  induction ns as [| n ns IH]; intros outs; simpl.
  - now rewrite app_nil_r.
  - rewrite IH, <- app_assoc. reflexivity.
Qed.

(** C8: the claimer has exactly one input, which spends output 0 of the
    coinbase, whose output 0 carries GENESIS_REWARD; its first output pays
    GENESIS_REWARD to the genesis address; the outputs after it are one
    CLAIM output per key of the root-zone snapshot, in ascending
    lexicographic order of the names, each with value 0, the claimant
    address and one covenant item, the name without its last character,
    which for a name that ends in a dot is the name without that dot. *)
Theorem claimer_outputs (tx_hash : genesis.TX -> string) (keys : genesis.Keys)
    (root_keys : list string) (flags : option (list byte)) :
  let coinbase := genesis.coinbase keys flags in
  let claimer := genesis.claimer tx_hash keys root_keys flags in
  let genesis_address := genesis.Address_fromHash consensus.GENESIS_KEY 0 in
  let claimant := genesis.Address_fromHash (genesis.claimant keys) 0 in
  genesis.inputs claimer
    = [ {| genesis.prevout := {| genesis.prev_hash := tx_hash coinbase;
                                 genesis.index := 0 |};
           genesis.witness := [];
           genesis.sequence := 0xffffffff |} ] /\
  genesis.outputs coinbase !! 0%nat
    = Some (genesis.plain_output consensus.GENESIS_REWARD genesis_address) /\
  genesis.outputs claimer
    = genesis.plain_output consensus.GENESIS_REWARD genesis_address
      :: map (fun name =>
                {| genesis.value := 0;
                   genesis.address := claimant;
                   genesis.covenant :=
                     {| genesis.type := genesis.CLAIM;
                        genesis.items :=
                          [genesis.ascii_bytes (genesis.slice_0_m1 name)] |} |})
             (genesis.names root_keys) /\
  StronglySorted genesis.string_le (genesis.names root_keys) /\
  Permutation (genesis.names root_keys) root_keys /\
  (forall raw : string, genesis.slice_0_m1 (raw ++ ".") = raw).
Proof.
  cbv zeta. split; [reflexivity |]. split; [reflexivity |].
  split; [| split; [| split]].
  - unfold genesis.claimer. cbn [genesis.outputs].
    rewrite push_claims_map. reflexivity.
  - apply names_sorted.
  - apply names_sorted.
  - apply slice_0_m1_dot.
Qed.

Example claimer_three_names :
  map genesis.covenant
    (genesis.outputs
       (genesis.claimer (fun _ => consensus.NULL_HASH)
          {| genesis.investors := []; genesis.foundation := [];
             genesis.claimant := []; genesis.creators := [];
             genesis.airdrop := [] |}
          ["org."; "com."; "net."]%string None))
  = [ {| genesis.type := genesis.NONE; genesis.items := [] |};
      {| genesis.type := genesis.CLAIM; genesis.items := [["c"; "o"; "m"]%byte] |};
      {| genesis.type := genesis.CLAIM; genesis.items := [["n"; "e"; "t"]%byte] |};
      {| genesis.type := genesis.CLAIM; genesis.items := [["o"; "r"; "g"]%byte] |} ].
Proof. vm_compute. reflexivity. Qed.

(* ===================================================================== *)
(** * Further properties of the code *)
(* ===================================================================== *)

(** ** Version bits *)

(** And-ing with a power of two tests one bit. *)
Lemma land_pow2 (a k : Z) :
  0 <= k -> Z.land a (2 ^ k) = if Z.testbit a k then 2 ^ k else 0.
Proof.
  intros Hk. apply Z.bits_inj'. intros i Hi.
  rewrite Z.land_spec, Z.pow2_bits_eqb by assumption.
  destruct (Z.eqb_spec k i) as [<- | Hne].
  - destruct (Z.testbit a k) eqn:Hb.
    + now rewrite Z.pow2_bits_eqb, Z.eqb_refl by assumption.
    + now rewrite Z.bits_0.
  - rewrite andb_false_r.
    destruct (Z.testbit a k).
    + rewrite Z.pow2_bits_eqb by assumption.
      symmetry. now apply Z.eqb_neq.
    + now rewrite Z.bits_0.
Qed.

Lemma ToInt32_range (z : Z) : - 2 ^ 31 <= JS.ToInt32 z < 2 ^ 31.
Proof.
  unfold JS.ToInt32.
  pose proof (Z.mod_pos_bound (z + 2 ^ 31) (2 ^ 32) ltac:(lia)). lia.
Qed.

Lemma ToInt32_mod (z : Z) : JS.ToInt32 z mod 2 ^ 32 = z mod 2 ^ 32.
Proof.
  unfold JS.ToInt32.
  rewrite Zminus_mod, Zmod_mod, <- Zminus_mod.
  f_equal. lia.
Qed.

(** The low 32 bits of a number survive ToInt32. *)
Lemma ToInt32_testbit (z k : Z) :
  0 <= k < 32 -> Z.testbit (JS.ToInt32 z) k = Z.testbit (JS.ToUint32 z) k.
Proof.
  intros Hk. unfold JS.ToUint32. rewrite <- ToInt32_mod.
  symmetry. apply Z.mod_pow2_bits_low. lia.
Qed.

(** The mask [1 << bit] and the and with it, in terms of bits. *)
Lemma hasBit_arith (version bit : Z) :
  consensus.hasBit version bit
  = Z.testbit (JS.ToUint32 version) (bit mod 32).
Proof.
  unfold consensus.hasBit, JS.band, JS.shl.
  pose proof (Z.mod_pos_bound bit 32 ltac:(lia)) as Hk.
  set (k := bit mod 32) in *.
  rewrite (ToInt32_small 1) by lia.
  rewrite Z.shiftl_mul_pow2, Z.mul_1_l by lia.
  rewrite <- (ToInt32_testbit version k) by lia.
  pose proof (ToInt32_range version) as Ha.
  set (a := JS.ToInt32 version) in *.
  destruct (Z.eq_dec k 31) as [-> | Hk31].
  - (* the mask is the sign bit: [1 << 31] is [- 2^31] *)
    change (JS.ToInt32 (JS.ToInt32 (2 ^ 31))) with (- 2 ^ 31).
    destruct (Z.ltb_spec a 0) as [Hneg | Hpos].
    + assert (Hland : Z.land a (- 2 ^ 31) < 0) by (apply Z.land_neg; lia).
      destruct (Z.eqb_spec (Z.land a (- 2 ^ 31)) 0); [lia |].
      symmetry. simpl negb.
      rewrite <- (Z.mod_pow2_bits_low a 32 31) by lia.
      apply Z.testbit_true; [lia |].
      replace (a mod 2 ^ 32) with (a + 2 ^ 32)
        by (apply Z.mod_unique with (-1); lia).
      replace ((a + 2 ^ 32) / 2 ^ 31) with 1
        by (apply Z.div_unique with (a + 2 ^ 31); lia).
      reflexivity.
    + rewrite (testbit_small a 31 31) by lia.
      replace (Z.land a (- 2 ^ 31)) with 0; [reflexivity |].
      symmetry. apply Z.bits_inj'. intros i Hi.
      rewrite Z.land_spec, Z.bits_0.
      destruct (Z.ltb_spec i 31) as [Hlt | Hge].
      * change (- 2 ^ 31) with (-1 * 2 ^ 31).
        rewrite Z.mul_pow2_bits_low by assumption. apply andb_false_r.
      * now rewrite (testbit_small a 31 i) by lia.
  - assert (2 ^ k < 2 ^ 31) by (apply Z.pow_lt_mono_r; lia).
    assert (0 < 2 ^ k) by (apply Z.pow_pos_nonneg; lia).
    rewrite (ToInt32_small (2 ^ k)) by lia.
    rewrite (ToInt32_small (2 ^ k)) by lia.
    rewrite land_pow2 by lia.
    destruct (Z.testbit a k); [| reflexivity].
    destruct (Z.eqb_spec (2 ^ k) 0); [lia | reflexivity].
Qed.

(** X1: hasBit tests bit [bit mod 32] of the version taken modulo 2^32,
    for every version and every bit number, bit 31 and bit numbers of 32
    and more included; an entry's hasBit does so on the entry's version. *)
Theorem hasBit_testbit {Solution : Type} (version bit : Z)
    (e : ChainEntry.t Solution) :
  consensus.hasBit version bit
  = Z.testbit (JS.ToUint32 version) (bit mod 32) /\
  ChainEntry.hasBit e bit
  = Z.testbit (JS.ToUint32 (ChainEntry.version e)) (bit mod 32).
Proof.
  split; [apply hasBit_arith |].
  unfold ChainEntry.hasBit. apply hasBit_arith.
Qed.

(** ** Compact targets, in general *)

Lemma band_low23 (c : Z) : JS.band c 0x7fffff = c mod 2 ^ 23.
Proof.
  assert (Hdiv : (2 ^ 23 | 2 ^ 32)) by (exists (2 ^ 9); reflexivity).
  unfold JS.band. rewrite (ToInt32_small 0x7fffff) by lia.
  change 0x7fffff with (Z.ones 23). rewrite Z.land_ones by lia.
  rewrite <- (Z.mod_mod_divide (JS.ToInt32 c) (2 ^ 32) (2 ^ 23) Hdiv).
  rewrite ToInt32_mod. now apply Z.mod_mod_divide.
Qed.

Lemma band_bit0 (x : Z) : 0 <= x < 2 ^ 31 -> JS.band x 1 = x mod 2.
Proof.
  intros Hx. unfold JS.band. rewrite !ToInt32_small by lia.
  change 1 with (Z.ones 1) at 1. now rewrite Z.land_ones by lia.
Qed.

(** fromCompact in arithmetic: mantissa, exponent byte and sign bit. *)
Lemma fromCompact_arith (c : Z) :
  0 <= c < 2 ^ 32 ->
  consensus.fromCompact c =
    let e := c / 2 ^ 24 in
    let m := c mod 2 ^ 23 in
    let magnitude :=
      if e <=? 3 then m / 2 ^ (8 * (3 - e)) else m * 2 ^ (8 * (e - 3)) in
    if Z.testbit c 23 then - magnitude else magnitude.
Proof.
  intros Hc. cbv zeta. unfold consensus.fromCompact.
  destruct (Z.eqb_spec c 0) as [-> | Hnz]; [reflexivity |].
  assert (He : 0 <= c / 2 ^ 24 < 2 ^ 8).
  { split; [apply Z.div_pos; lia | apply Z.div_lt_upper_bound; lia]. }
  assert (Hs : 0 <= c / 2 ^ 23 < 2 ^ 9).
  { split; [apply Z.div_pos; lia | apply Z.div_lt_upper_bound; lia]. }
  pose proof (Z.mod_pos_bound c (2 ^ 23) ltac:(lia)) as Hm.
  rewrite (ushr_small c 24), (ushr_small c 23) by lia.
  rewrite band_low23, band_bit0 by lia.
  set (e := c / 2 ^ 24) in *. set (m := c mod 2 ^ 23) in *.
  assert (Hmag :
    (if e <=? 3 then JS.ushr m (8 * (3 - e))
     else BN.iushln m (8 * (e - 3)))
    = (if e <=? 3 then m / 2 ^ (8 * (3 - e)) else m * 2 ^ (8 * (e - 3)))).
  { destruct (Z.leb_spec e 3).
    - apply ushr_small; lia.
    - unfold BN.iushln. rewrite Z.abs_eq, Z.shiftl_mul_pow2 by lia.
      destruct (Z.eq_dec m 0) as [-> | ]; [reflexivity |].
      rewrite Z.sgn_pos by lia. apply Z.mul_1_l. }
  rewrite Hmag. unfold JS.truthy, BN.ineg.
  pose proof (Z.testbit_spec' c 23 ltac:(lia)) as Hbit.
  destruct (Z.testbit c 23); simpl Z.b2z in Hbit; rewrite <- Hbit; reflexivity.
Qed.

(** X2: the value of fromCompact on any unsigned 32-bit compact number:
    the 23-bit mantissa shifted by whole bytes according to the exponent
    byte, negated when bit 23 is set.  No exponent makes the 32-bit
    operators wrap. *)
Theorem fromCompact_value (c : Z) :
  0 <= c < 2 ^ 32 ->
  consensus.fromCompact c =
    let e := c / 2 ^ 24 in
    let m := c mod 2 ^ 23 in
    let magnitude :=
      if e <=? 3 then m / 2 ^ (8 * (3 - e)) else m * 2 ^ (8 * (e - 3)) in
    if Z.testbit c 23 then - magnitude else magnitude.
Proof. exact (fromCompact_arith c). Qed.

Lemma fromCompact_value_witness :
  consensus.fromCompact 0x1d00ffff =
    let e := 0x1d00ffff / 2 ^ 24 in
    let m := 0x1d00ffff mod 2 ^ 23 in
    let magnitude :=
      if e <=? 3 then m / 2 ^ (8 * (3 - e)) else m * 2 ^ (8 * (e - 3)) in
    if Z.testbit 0x1d00ffff 23 then - magnitude else magnitude.
Proof. apply (fromCompact_value 0x1d00ffff). lia. Defined.

(** The sign of a target is decided by bit 23. *)
Lemma fromCompact_sign (c : Z) :
  0 <= c < 2 ^ 32 ->
  (Z.testbit c 23 = true -> consensus.fromCompact c <= 0) /\
  (Z.testbit c 23 = false -> 0 <= consensus.fromCompact c).
Proof.
  intros Hc. rewrite fromCompact_arith by assumption. cbv zeta.
  pose proof (Z.mod_pos_bound c (2 ^ 23) ltac:(lia)) as Hm.
  set (m := c mod 2 ^ 23) in *. set (e := c / 2 ^ 24).
  assert (0 <= (if e <=? 3 then m / 2 ^ (8 * (3 - e))
                else m * 2 ^ (8 * (e - 3)))).
  { destruct (Z.leb_spec e 3).
    - apply Z.div_pos; [lia |]. apply Z.pow_pos_nonneg; lia.
    - apply Z.mul_nonneg_nonneg; [lia |]. apply Z.pow_nonneg. lia. }
  split; intros ->; lia.
Qed.

(** X3: verifyPOW accepts no hash against a compact target whose sign
    bit (bit 23) is set. *)
Theorem verifyPOW_sign_bit (hash : list byte) (bits : Z) :
  0 <= bits < 2 ^ 32 -> Z.testbit bits 23 = true ->
  consensus.verifyPOW hash bits = false.
Proof.
  intros Hc Hbit. unfold consensus.verifyPOW, BN.isNeg, BN.isZero.
  destruct (fromCompact_sign bits Hc) as [Hneg _]. specialize (Hneg Hbit).
  set (target := consensus.fromCompact bits) in *.
  destruct (Z.ltb_spec target 0); [reflexivity |].
  destruct (Z.eqb_spec target 0); [reflexivity | lia].
Qed.

Lemma verifyPOW_sign_bit_witness :
  consensus.verifyPOW [] 0x1d80ffff = false.
Proof.
  apply (verifyPOW_sign_bit [] 0x1d80ffff); [lia | reflexivity].
Defined.

Lemma byteLength_unique (x n : Z) :
  0 < x -> 1 <= n -> 2 ^ (8 * (n - 1)) <= x < 2 ^ (8 * n) ->
  BN.byteLength x = n.
Proof.
  intros Hx Hn [Hlo Hhi].
  destruct (byteLength_bounds x Hx) as (Hb & Hblo & Hbhi).
  set (b := BN.byteLength x) in *.
  destruct (Z.lt_trichotomy b n) as [Hlt | [Heq | Hgt]]; [| assumption |].
  - assert (2 ^ (8 * b) <= 2 ^ (8 * (n - 1)))
      by (apply Z.pow_le_mono_r; lia).
    lia.
  - assert (2 ^ (8 * n) <= 2 ^ (8 * (b - 1)))
      by (apply Z.pow_le_mono_r; lia).
    lia.
Qed.

(** The compact numbers toCompact produces: exponent byte from 3 to 32
    and a mantissa of two or three bytes with bit 23 clear. *)
Lemma toCompact_fromCompact_canonical (e m : Z) :
  3 <= e <= 32 -> 2 ^ 15 <= m < 2 ^ 23 ->
  consensus.toCompact (consensus.fromCompact (e * 2 ^ 24 + m))
  = e * 2 ^ 24 + m.
Proof.
  intros He Hm.
  rewrite fromCompact_pos by lia.
  pose (k := e - 3).
  assert (Hk : 0 <= k) by (subst k; lia).
  pose proof (pow2_pos (8 * k) ltac:(lia)) as HP.
  assert (Hx : (if e <=? 3 then m / 2 ^ (8 * (3 - e))
                else m * 2 ^ (8 * (e - 3))) = m * 2 ^ (8 * k)).
  { subst k. destruct (Z.leb_spec e 3).
    - assert (e = 3) as -> by lia.
      change (2 ^ (8 * (3 - 3))) with 1.
      now rewrite Z.div_1_r, Z.mul_1_r.
    - reflexivity. }
  rewrite Hx. clear Hx.
  set (x := m * 2 ^ (8 * k)) in *.
  assert (Hpow : forall a b, 0 <= a -> 0 <= b ->
            2 ^ (a + 8 * b) = 2 ^ a * 2 ^ (8 * b))
    by (intros; apply Z.pow_add_r; lia).
  assert (Hx256 : 0 < x < 2 ^ 256).
  { subst x. split; [nia |].
    assert (2 ^ (8 * k) <= 2 ^ 232) by (apply Z.pow_le_mono_r; lia).
    nia. }
  rewrite toCompact_pos by assumption.
  unfold leading_bytes.
  destruct (Z.ltb_spec m (2 ^ 16)) as [Hsmall | Hbig].
  - (* a two-byte mantissa: the number has [e - 1] bytes *)
    assert (Hlen : BN.byteLength x = e - 1).
    { apply byteLength_unique; [lia | lia |].
      replace (8 * (e - 1 - 1)) with (8 + 8 * k) by lia.
      replace (8 * (e - 1)) with (16 + 8 * k) by lia.
      rewrite !Hpow by lia. subst x. nia. }
    rewrite Hlen.
    assert (Hlead : (if e - 1 <=? 3 then x * 2 ^ (8 * (3 - (e - 1)))
                     else x / 2 ^ (8 * (e - 1 - 3))) = m * 2 ^ 8).
    { destruct (Z.leb_spec (e - 1) 3).
      - subst x. rewrite <- Z.mul_assoc, <- Z.pow_add_r by lia.
        f_equal. f_equal. lia.
      - subst x. replace (8 * k) with (8 + 8 * (e - 1 - 3)) by lia.
        rewrite Hpow by lia.
        pose proof (pow2_pos (8 * (e - 1 - 3)) ltac:(lia)).
        rewrite Z.mul_assoc, Z.div_mul by lia. reflexivity. }
    rewrite Hlead.
    destruct (Z.ltb_spec (m * 2 ^ 8) (2 ^ 23)); [lia |].
    rewrite Z.div_mul by lia. f_equal. f_equal. lia.
  - (* a three-byte mantissa: the number has [e] bytes *)
    assert (Hlen : BN.byteLength x = e).
    { apply byteLength_unique; [lia | lia |].
      replace (8 * (e - 1)) with (16 + 8 * k) by lia.
      replace (8 * e) with (24 + 8 * k) by lia.
      rewrite !Hpow by lia. subst x. nia. }
    rewrite Hlen.
    assert (Hlead : (if e <=? 3 then x * 2 ^ (8 * (3 - e))
                     else x / 2 ^ (8 * (e - 3))) = m).
    { destruct (Z.leb_spec e 3).
      - subst x k. replace e with 3 by lia.
        change (2 ^ (8 * (3 - 3))) with 1. lia.
      - subst x k. apply Z.div_mul. lia. }
    rewrite Hlead.
    destruct (Z.ltb_spec m (2 ^ 23)); [reflexivity | lia].
Qed.

(** X4: fromCompact followed by toCompact gives back every compact
    number in canonical form: an exponent byte from 3 to 32 and a mantissa
    from 0x008000 to 0x7fffff. *)
Theorem compact_canonical_roundtrip (e m : Z) :
  3 <= e <= 32 -> 2 ^ 15 <= m < 2 ^ 23 ->
  consensus.toCompact (consensus.fromCompact (e * 2 ^ 24 + m))
  = e * 2 ^ 24 + m.
Proof. exact (toCompact_fromCompact_canonical e m). Qed.

Lemma compact_canonical_roundtrip_witness :
  consensus.toCompact (consensus.fromCompact (0x20 * 2 ^ 24 + 0x7fffff))
  = 0x20 * 2 ^ 24 + 0x7fffff.
Proof. apply (compact_canonical_roundtrip 0x20 0x7fffff); lia. Defined.

(** A mantissa below 0x008000 is not canonical: toCompact renormalises. *)
Example compact_not_canonical :
  consensus.toCompact (consensus.fromCompact 0x1d0000ff) = 0x1c00ff00.
Proof. vm_compute. reflexivity. Qed.

(** ** The subsidy schedule *)

(** X5: along the heights the reward never grows: for heights
    [h <= h'] it is a number at both, at most the base reward at [h] and
    no more at [h'] than at [h]; and it is zero from height
    [30 * interval] on, long before the 52 halvings the code tests for. *)
Theorem getReward_monotone (h h' i : Z) :
  0 <= h <= h' -> h' < 2 ^ 32 -> 0 < i < 2 ^ 32 ->
  exists r r',
    consensus.getReward h i = Some (JS.Num r) /\
    consensus.getReward h' i = Some (JS.Num r') /\
    0 <= r' <= r /\ r <= consensus.BASE_REWARD /\
    (30 * i <= h -> r = 0).
Proof.
  intros Hh Hh' Hi.
  rewrite !getReward_in_range by lia.
  do 2 eexists. split; [reflexivity |]. split; [reflexivity |].
  assert (Hq : 0 <= h / i) by (apply Z.div_pos; lia).
  assert (Hqq : h / i <= h' / i) by (apply Z.div_le_mono; lia).
  pose proof (pow2_pos (h / i) Hq) as Hp.
  pose proof (pow2_pos (h' / i) ltac:(lia)) as Hp'.
  assert (Hpp : 2 ^ (h / i) <= 2 ^ (h' / i))
    by (apply Z.pow_le_mono_r; lia).
  assert (HB : 0 <= consensus.BASE_REWARD) by (vm_compute; discriminate).
  assert (H0 : 0 <= consensus.BASE_REWARD / 2 ^ (h' / i))
    by (apply Z.div_pos; lia).
  assert (Hle : consensus.BASE_REWARD / 2 ^ (h' / i)
                <= consensus.BASE_REWARD / 2 ^ (h / i))
    by (apply Z.div_le_compat_l; lia).
  assert (Hup : consensus.BASE_REWARD / 2 ^ (h / i) <= consensus.BASE_REWARD).
  { apply Z.div_le_upper_bound; [lia |]. nia. }
  repeat split.
  - destruct (52 <=? h' / i); lia.
  - destruct (Z.leb_spec 52 (h' / i)), (Z.leb_spec 52 (h / i)); lia.
  - destruct (52 <=? h / i); lia.
  - intros H30. destruct (52 <=? h / i); [reflexivity |].
    apply Z.div_small. split; [lia |].
    assert (30 <= h / i) by (apply Z.div_le_lower_bound; lia).
    apply Z.lt_le_trans with (2 ^ 30); [vm_compute; reflexivity |].
    apply Z.pow_le_mono_r; lia.
Qed.

Lemma getReward_monotone_witness :
  exists r r',
    consensus.getReward 340000 340000 = Some (JS.Num r) /\
    consensus.getReward 680000 340000 = Some (JS.Num r') /\
    0 <= r' <= r /\ r <= consensus.BASE_REWARD /\
    (30 * 340000 <= 340000 -> r = 0).
Proof. apply (getReward_monotone 340000 680000 340000); lia. Defined.

(** *** The whole supply of subsidies *)

Lemma subsidy_in_era (I k j : nat) :
  (0 < I)%nat -> Z.of_nat I < 2 ^ 32 -> (j < I)%nat ->
  Z.of_nat (k * I + j) < 2 ^ 32 ->
  subsidy (Z.of_nat I) (k * I + j) = era_reward k.
Proof.
  intros HI HI32 Hj Hh. unfold subsidy, era_reward.
  rewrite getReward_in_range by lia.
  replace (Z.of_nat (k * I + j) / Z.of_nat I) with (Z.of_nat k);
    [reflexivity |].
  apply Z.div_unique with (Z.of_nat j); lia.
Qed.

Lemma total_subsidy_in_era (I k j : nat) :
  (0 < I)%nat -> Z.of_nat I < 2 ^ 32 -> (j <= I)%nat ->
  Z.of_nat (k * I + j) <= 2 ^ 32 ->
  total_subsidy (Z.of_nat I) (k * I + j)
  = total_subsidy (Z.of_nat I) (k * I) + Z.of_nat j * era_reward k.
Proof.
  intros HI HI32. induction j as [| j IH]; intros Hj Hh.
  - rewrite Nat.add_0_r. lia.
  - rewrite Nat.add_succ_r. cbn [total_subsidy].
    rewrite IH, subsidy_in_era by lia. lia.
Qed.

Lemma total_subsidy_eras (I k : nat) :
  (0 < I)%nat -> Z.of_nat I < 2 ^ 32 -> Z.of_nat (k * I) <= 2 ^ 32 ->
  total_subsidy (Z.of_nat I) (k * I) = Z.of_nat I * sum_eras k.
Proof.
  intros HI HI32. induction k as [| k IH]; intros Hh.
  - simpl. lia.
  - replace (S k * I)%nat with (k * I + I)%nat by lia.
    rewrite total_subsidy_in_era by lia.
    rewrite IH by lia. cbn [sum_eras]. lia.
Qed.

(** From era 52 on nothing is added: the halvings test returns zero, and
    past the 32-bit heights the assertion leaves no reward at all. *)
Lemma subsidy_after_52 (I h : nat) :
  (0 < I)%nat -> Z.of_nat I < 2 ^ 32 -> (52 * I <= h)%nat ->
  subsidy (Z.of_nat I) h = 0.
Proof.
  intros HI HI32 Hh. unfold subsidy, consensus.getReward, JS.floor_div.
  destruct (JS.ToUint32 (Z.of_nat h) =? Z.of_nat h); [| reflexivity].
  rewrite u32_fixed by lia. simpl.
  destruct (Z.eqb_spec (Z.of_nat I) 0); [lia |].
  assert (52 <= Z.of_nat h / Z.of_nat I)
    by (apply Z.div_le_lower_bound; lia).
  destruct (Z.leb_spec 52 (Z.of_nat h / Z.of_nat I)); [reflexivity | lia].
Qed.

Lemma total_subsidy_after_52 (I n : nat) :
  (0 < I)%nat -> Z.of_nat (52 * I) <= 2 ^ 32 ->
  total_subsidy (Z.of_nat I) (52 * I + n) = Z.of_nat I * sum_eras 52.
Proof.
  intros HI Hh. assert (HI32 : Z.of_nat I < 2 ^ 32) by lia. induction n as [| n IH].
  - rewrite Nat.add_0_r. now apply total_subsidy_eras.
  - rewrite Nat.add_succ_r. cbn [total_subsidy].
    rewrite IH, subsidy_after_52 by lia. lia.
Qed.

(** X6: whatever the halving interval, the subsidies of all blocks
    together are the interval times 1_999_999_987 dollarydoos, reached at
    height [52 * interval] and never exceeded; with the 4_420_000 that the
    genesis reward has above the base reward this is MAX_SUBSIDY exactly
    when the interval is 340_000 blocks, and MAX_PREMINE + MAX_SUBSIDY is
    MAX_MONEY. *)
Theorem total_subsidy_cap (interval : Z) (n : nat) :
  0 < interval -> 52 * interval <= 2 ^ 32 -> 52 * interval <= Z.of_nat n ->
  total_subsidy interval n = interval * 1999999987 /\
  (total_subsidy interval n
     + (consensus.GENESIS_REWARD - consensus.BASE_REWARD)
   = consensus.MAX_SUBSIDY <-> interval = 340000) /\
  consensus.MAX_PREMINE + consensus.MAX_SUBSIDY = consensus.MAX_MONEY.
Proof.
  intros Hi H52 Hn.
  assert (Htotal : total_subsidy interval n = interval * 1999999987).
  { rewrite <- (Z2Nat.id interval) by lia.
    replace n with (52 * Z.to_nat interval + (n - 52 * Z.to_nat interval))%nat
      by lia.
    rewrite total_subsidy_after_52 by lia.
    f_equal. }
  split; [assumption |]. split; [| reflexivity].
  rewrite Htotal.
  replace (consensus.GENESIS_REWARD - consensus.BASE_REWARD) with 4420000
    by (vm_compute; reflexivity).
  change consensus.MAX_SUBSIDY with 680000000000000.
  lia.
Qed.

Lemma total_subsidy_cap_witness :
  total_subsidy 340000 (Z.to_nat 17680000) = 340000 * 1999999987 /\
  (total_subsidy 340000 (Z.to_nat 17680000)
     + (consensus.GENESIS_REWARD - consensus.BASE_REWARD)
   = consensus.MAX_SUBSIDY <-> 340000 = 340000) /\
  consensus.MAX_PREMINE + consensus.MAX_SUBSIDY = consensus.MAX_MONEY.
Proof. apply (total_subsidy_cap 340000 (Z.to_nat 17680000)); lia. Defined.

(** ** Chains of entries *)

Lemma getProof_nonneg {Solution : Type} (e : ChainEntry.t Solution) :
  0 <= ChainEntry.getProof e.
Proof.
  rewrite getProof_spec. unfold spec_proof.
  destruct (Z.ltb_spec 0 (consensus.fromCompact (ChainEntry.bits e)));
    [| lia].
  apply Z.div_pos; lia.
Qed.

(** A target that passes verifyPOW is positive and below 2^256. *)
Lemma verifyPOW_target (hash : list byte) (bits : Z) :
  consensus.verifyPOW hash bits = true ->
  0 < consensus.fromCompact bits < 2 ^ 256.
Proof.
  unfold consensus.verifyPOW, BN.isNeg, BN.isZero.
  set (target := consensus.fromCompact bits).
  destruct (Z.ltb_spec target 0); [discriminate |].
  destruct (Z.eqb_spec target 0); [discriminate |]. simpl.
  destruct (Z.ltb_spec 256 (BN.bitLength target)); [discriminate |].
  intros _. split; [lia |].
  apply bitLength_le_iff; lia.
Qed.

Section chains.

Context {Solution : Type}.

Lemma connect_step (prev : ChainEntry.t Solution) (blocks : list (Block.t Solution)) :
  exists tip,
    ChainEntry.connect (Some prev) blocks = Some tip /\
    ChainEntry.height tip = ChainEntry.height prev + Z.of_nat (length blocks) /\
    ChainEntry.chainwork tip = ChainEntry.chainwork prev + chain_work blocks.
Proof.
  revert prev. induction blocks as [| b blocks IH]; intros prev.
  - exists prev. simpl. repeat split; lia.
  - destruct (IH (ChainEntry.fromBlock b (Some prev))) as (tip & Htip & Hh & Hw).
    exists tip. split; [exact Htip |].
    rewrite Hh, Hw. cbn [length chain_work fold_right].
    fold (chain_work blocks).
    unfold ChainEntry.fromBlock at 1 2.
    cbn [ChainEntry.height ChainEntry.chainwork].
    unfold ChainEntry.getChainwork, BN.iadd. rewrite getProof_spec.
    cbn [ChainEntry.bits]. lia.
Qed.

(** X7: in a chain of entries built block by block from the genesis
    block, the last entry's height is the number of blocks before it and
    its chainwork is the sum of the proofs [(1 << 256) / (target + 1)] of
    all the blocks; it is the genesis entry exactly when it is the only
    one. *)
Theorem connect_invariant (genesis_block : Block.t Solution)
    (blocks : list (Block.t Solution)) :
  exists tip,
    ChainEntry.connect None (genesis_block :: blocks) = Some tip /\
    ChainEntry.height tip = Z.of_nat (length blocks) /\
    ChainEntry.chainwork tip = chain_work (genesis_block :: blocks) /\
    (ChainEntry.isGenesis tip = true <-> blocks = []).
Proof.
  destruct (connect_step (ChainEntry.fromBlock genesis_block None) blocks)
    as (tip & Htip & Hh & Hw).
  exists tip. split; [exact Htip |].
  assert (Hg : ChainEntry.chainwork (ChainEntry.fromBlock genesis_block None)
               = spec_proof (Block.bits genesis_block)).
  { unfold ChainEntry.fromBlock. cbn [ChainEntry.chainwork].
    unfold ChainEntry.getChainwork. now rewrite getProof_spec. }
  split; [| split; [| split]].
  - rewrite Hh. cbn [ChainEntry.fromBlock ChainEntry.height]. lia.
  - rewrite Hw, Hg. cbn [chain_work fold_right]. reflexivity.
  - unfold ChainEntry.isGenesis. rewrite Hh.
    cbn [ChainEntry.fromBlock ChainEntry.height].
    intros Hz. apply Z.eqb_eq in Hz. destruct blocks; [reflexivity |].
    simpl length in Hz. lia.
  - intros ->. unfold ChainEntry.isGenesis. rewrite Hh. reflexivity.
Qed.

(** X8: an entry never has less chainwork than its parent, and it has
    more whenever its compact target is one that verifyPOW can accept. *)
Theorem chainwork_grows (block : Block.t Solution)
    (prev : ChainEntry.t Solution)
    (hash : list byte) :
  consensus.verifyPOW hash (Block.bits block) = true ->
  ChainEntry.chainwork prev
  < ChainEntry.chainwork (ChainEntry.fromBlock block (Some prev)) /\
  forall (b : Block.t Solution),
    ChainEntry.chainwork prev
    <= ChainEntry.chainwork (ChainEntry.fromBlock b (Some prev)).
Proof.
  intros Hpow. apply verifyPOW_target in Hpow.
  unfold ChainEntry.fromBlock. cbn [ChainEntry.chainwork].
  unfold ChainEntry.getChainwork, BN.iadd. split.
  - rewrite getProof_spec. cbn [ChainEntry.bits]. unfold spec_proof.
    destruct (Z.ltb_spec 0 (consensus.fromCompact (Block.bits block)));
      [| lia].
    assert (1 <= 2 ^ 256 / (consensus.fromCompact (Block.bits block) + 1))
      by (apply Z.div_le_lower_bound; lia).
    lia.
  - intros b.
    match goal with |- _ <= ChainEntry.getProof ?e + _ =>
      pose proof (getProof_nonneg e) end.
    lia.
Qed.

End chains.

Lemma chainwork_grows_witness :
  ChainEntry.chainwork (ChainEntry.create (nil : list Z))
  < ChainEntry.chainwork
      (ChainEntry.fromBlock example_block
         (Some (ChainEntry.create (nil : list Z)))) /\
  forall b : Block.t (list Z),
    ChainEntry.chainwork (ChainEntry.create (nil : list Z))
    <= ChainEntry.chainwork
         (ChainEntry.fromBlock b (Some (ChainEntry.create (nil : list Z)))).
Proof.
  apply (chainwork_grows example_block (ChainEntry.create nil) nil).
  vm_compute. reflexivity.
Defined.

(** ** The JSON form of an entry *)

(** Decoding hexadecimal digits gives at most one byte per two
    characters. *)
Lemma length_Buffer_from_hex (s : string) :
  (2 * length (ChainEntry.Buffer_from_hex s) <= String.length s)%nat.
Proof.
  assert (H : forall n s, (String.length s <= n)%nat ->
            (2 * length (ChainEntry.Buffer_from_hex s) <= String.length s)%nat).
  { clear s. induction n as [| n IH]; intros s Hn.
    - destruct s; simpl in *; lia.
    - destruct s as [| c1 [| c2 s]]; simpl; try lia.
      destruct (hex_val c1), (hex_val c2); simpl; try lia.
      specialize (IH s). simpl in Hn.
      assert ((String.length s <= n)%nat) by lia.
      specialize (IH H). lia. }
  now apply (H (String.length s)).
Qed.

(** X9: fromJSON returns no entry, whatever object it is given: it asks
    for a nonce string of 32 characters and then for a nonce of
    NONCE_SIZE = 20 bytes, and 32 hexadecimal characters are at most 16
    bytes. *)
Theorem fromJSON_fails {Solution SolJSON : Type}
    (sol_fromJSON : SolJSON -> option Solution)
    (j : ChainEntry.json SolJSON) :
  ChainEntry.fromJSON sol_fromJSON j = None.
Proof.
  unfold ChainEntry.fromJSON.
  repeat match goal with
         | |- (if negb ?b then None else _) = None =>
             destruct b eqn:?; [cbn [negb] | reflexivity]
         end.
  match goal with
  | H : ChainEntry.length_is (ChainEntry.j_nonce j) 32 = true |- _ =>
      unfold ChainEntry.length_is in H; apply Z.eqb_eq in H;
      pose proof (length_Buffer_from_hex (ChainEntry.j_nonce j))
  end.
  match goal with
  | H : (length _ =? consensus.NONCE_SIZE)%nat = true |- _ =>
      apply Nat.eqb_eq in H; unfold consensus.NONCE_SIZE in H; lia
  end.
Qed.

(** ** Reading an entry *)

Lemma bind_inv {A B : Type} (m : bio.reader A) (k : A -> bio.reader B)
    (bs : list byte) (r : B * list byte) :
  bio.bind m k bs = Some r ->
  exists a rest, m bs = Some (a, rest) /\ k a rest = Some r.
Proof.
  unfold bio.bind. destruct (m bs) as [[a rest] |]; [| discriminate].
  intros Hk. now exists a, rest.
Qed.

Lemma readBytes_inv (n : nat) (bs a rest : list byte) :
  bio.readBytes n bs = Some (a, rest) -> bs = a ++ rest /\ length a = n.
Proof.
  unfold bio.readBytes.
  destruct (Nat.leb_spec n (length bs)); [| discriminate].
  intros [= <- <-]. split.
  - symmetry. apply firstn_skipn.
  - apply firstn_length_le. assumption.
Qed.

Lemma le_value_range (bs : list byte) :
  0 <= le_value bs < 256 ^ Z.of_nat (length bs).
Proof.
  induction bs as [| b bs IH]; [simpl; lia |].
  cbn [le_value length]. rewrite Nat2Z.inj_succ, Z.pow_succ_r by lia.
  pose proof (Z_of_byte_range b). lia.
Qed.

Lemma byte_of_Z_mod (z : Z) : byte_of_Z (z mod 256) = byte_of_Z z.
Proof. unfold byte_of_Z. now rewrite Z.mod_mod by lia. Qed.

(** Writing the value of a byte string gives the string back. *)
Lemma le_bytes_le_value (bs : list byte) :
  le_bytes (length bs) (le_value bs) = bs.
Proof.
  induction bs as [| b bs IH]; [reflexivity |].
  cbn [length le_bytes le_value].
  pose proof (Z_of_byte_range b) as Hb.
  f_equal.
  - rewrite <- byte_of_Z_mod.
    replace ((Z_of_byte b + 256 * le_value bs) mod 256) with (Z_of_byte b)
      by (apply Z.mod_unique with (le_value bs); lia).
    apply byte_of_Z_of_byte.
  - replace ((Z_of_byte b + 256 * le_value bs) / 256) with (le_value bs)
      by (apply Z.div_unique with (Z_of_byte b); lia).
    exact IH.
Qed.

Lemma be_bytes_be_value (bs : list byte) :
  be_bytes (length bs) (be_value bs) = bs.
Proof.
  unfold be_bytes, be_value.
  rewrite <- (length_rev bs), le_bytes_le_value. apply rev_involutive.
Qed.

Lemma le_bytes_le_value_n (n : nat) (bs : list byte) :
  length bs = n -> le_bytes n (le_value bs) = bs.
Proof. intros <-. apply le_bytes_le_value. Qed.

Lemma be_bytes_be_value_n (n : nat) (bs : list byte) :
  length bs = n -> be_bytes n (be_value bs) = bs.
Proof. intros <-. apply be_bytes_be_value. Qed.

Lemma be_value_range (bs : list byte) :
  0 <= be_value bs < 256 ^ Z.of_nat (length bs).
Proof.
  unfold be_value. rewrite <- (length_rev bs). apply le_value_range.
Qed.

Lemma length_to_hex (bs : list byte) :
  String.length (to_hex bs) = (2 * length bs)%nat.
Proof.
  induction bs as [| b bs IH]; [reflexivity |].
  cbn [to_hex String.length length]. rewrite IH. lia.
Qed.

Lemma hex_val_hex_char (d : Z) :
  0 <= d < 16 -> hex_val (hex_char d) = Some d.
Proof.
  intros Hd. unfold hex_val, hex_char.
  destruct (Z.ltb_spec d 10); rewrite N_ascii_embedding by lia;
    rewrite Z2N.id by lia.
  - destruct (Z.leb_spec 48 (48 + d)), (Z.leb_spec (48 + d) 57); try lia.
    simpl. f_equal. lia.
  - destruct (Z.leb_spec 48 (87 + d)), (Z.leb_spec (87 + d) 57),
      (Z.leb_spec 97 (87 + d)), (Z.leb_spec (87 + d) 102); try lia;
      simpl; f_equal; lia.
Qed.

(** Decoding the hexadecimal form of bytes gives the bytes. *)
Lemma from_hex_to_hex (bs : list byte) : from_hex (to_hex bs) = Some bs.
Proof.
  induction bs as [| b bs IH]; [reflexivity |].
  cbn [to_hex from_hex].
  pose proof (Z_of_byte_range b) as Hb.
  rewrite !hex_val_hex_char, IH.
  - rewrite <- Z.div_mod by lia. now rewrite byte_of_Z_of_byte.
  - apply Z.mod_pos_bound. lia.
  - split; [apply Z.div_pos; lia | apply Z.div_lt_upper_bound; lia].
Qed.

Lemma is_hash_to_hex (bs : list byte) :
  length bs = 32%nat -> is_hash (to_hex bs) = true.
Proof.
  intros Hlen. unfold is_hash.
  rewrite length_to_hex, Hlen, to_hex_is_lower_hex. reflexivity.
Qed.

Lemma writeHash_to_hex (bs : list byte) :
  length bs = 32%nat -> bio.writeHash (to_hex bs) = Some bs.
Proof.
  intros Hlen. unfold bio.writeHash.
  rewrite length_to_hex, Hlen. simpl. apply from_hex_to_hex.
Qed.

Lemma readHash_inv (bs rest : list byte) (s : string) :
  bio.readHash bs = Some (s, rest) ->
  exists h, bs = h ++ rest /\ length h = 32%nat /\ s = to_hex h.
Proof.
  intros Hr. apply bind_inv in Hr as (h & rest' & Hh & Hret).
  injection Hret as <- <-. apply readBytes_inv in Hh as [-> Hlen].
  now exists h.
Qed.

Lemma readU32_inv (bs rest : list byte) (v : Z) :
  bio.readU32 bs = Some (v, rest) ->
  exists w, bs = w ++ rest /\ length w = 4%nat /\ v = le_value w.
Proof.
  intros Hr. apply bind_inv in Hr as (w & rest' & Hw & Hret).
  injection Hret as <- <-. apply readBytes_inv in Hw as [-> Hlen].
  now exists w.
Qed.

Lemma readU64_inv (bs rest : list byte) (v : Z) :
  bio.readU64 bs = Some (v, rest) ->
  exists w, bs = w ++ rest /\ length w = 8%nat /\ v = le_value w /\ v < 2 ^ 53.
Proof.
  intros Hr. apply bind_inv in Hr as (w & rest' & Hw & Hret).
  destruct (Z.ltb_spec (le_value w) (2 ^ 53)); [| discriminate].
  injection Hret as <- <-. apply readBytes_inv in Hw as [-> Hlen].
  now exists w.
Qed.

Section entry_reading.

Context {Solution : Type} `{SolutionCodec Solution}.

(** What [read] consumed and what it made of it. *)
Lemma read_inv (data rest : list byte) (e : ChainEntry.t Solution) :
  ChainEntry.read data = Some (e, rest) ->
  exists h ht v p m w r t b n tail tail' c,
    data = h ++ ht ++ v ++ p ++ m ++ w ++ r ++ t ++ b ++ n ++ tail /\
    sol_fromReader tail = Some (ChainEntry.solution e, tail') /\
    tail' = c ++ rest /\
    (length h = 32 /\ length ht = 4 /\ length v = 4 /\ length p = 32 /\
     length m = 32 /\ length w = 32 /\ length r = 32 /\ length t = 8 /\
     length b = 4 /\ length n = 20 /\ length c = 32)%nat /\
    le_value t < 2 ^ 53 /\
    ChainEntry.hash e = to_hex h /\
    ChainEntry.height e = le_value ht /\
    ChainEntry.version e = le_value v /\
    ChainEntry.prevBlock e = to_hex p /\
    ChainEntry.merkleRoot e = to_hex m /\
    ChainEntry.witnessRoot e = to_hex w /\
    ChainEntry.treeRoot e = to_hex r /\
    ChainEntry.time e = le_value t /\
    ChainEntry.bits e = le_value b /\
    ChainEntry.nonce e = n /\
    ChainEntry.chainwork e = be_value c.
Proof.
  unfold ChainEntry.read. intros Hr.
  apply bind_inv in Hr as (? & r1 & Hh & Hr).
  apply readHash_inv in Hh as (h & -> & Lh & ->).
  apply bind_inv in Hr as (? & r2 & Hht & Hr).
  apply readU32_inv in Hht as (ht & -> & Lht & ->).
  apply bind_inv in Hr as (? & r3 & Hv & Hr).
  apply readU32_inv in Hv as (v & -> & Lv & ->).
  apply bind_inv in Hr as (? & r4 & Hp & Hr).
  apply readHash_inv in Hp as (p & -> & Lp & ->).
  apply bind_inv in Hr as (? & r5 & Hm & Hr).
  apply readHash_inv in Hm as (m & -> & Lm & ->).
  apply bind_inv in Hr as (? & r6 & Hw & Hr).
  apply readHash_inv in Hw as (w & -> & Lw & ->).
  apply bind_inv in Hr as (? & r7 & Hrt & Hr).
  apply readHash_inv in Hrt as (r & -> & Lr & ->).
  apply bind_inv in Hr as (? & r8 & Ht & Hr).
  apply readU64_inv in Ht as (t & -> & Lt & -> & Ht53).
  apply bind_inv in Hr as (? & r9 & Hb & Hr).
  apply readU32_inv in Hb as (b & -> & Lb & ->).
  apply bind_inv in Hr as (n & r10 & Hn & Hr).
  apply readBytes_inv in Hn as (-> & Ln).
  apply bind_inv in Hr as (sol & r11 & Hsol & Hr).
  apply bind_inv in Hr as (c & r12 & Hc & Hr).
  apply readBytes_inv in Hc as (-> & Lc).
  injection Hr as <- <-.
  exists h, ht, v, p, m, w, r, t, b, n, r10, (c ++ r12), c.
  cbn. repeat split; try assumption; reflexivity.
Qed.

(** X10: an entry that fromRaw returns has the types of the data model
    in every fixed-size field: five hashes of 64 lowercase hexadecimal
    digits, unsigned 32-bit height, version and bits, a time below 2^53, a
    nonce of 20 bytes and a chainwork below 2^256; and data shorter than
    the 200 bytes before the solution is refused. *)
Theorem fromRaw_typed (data : list byte) (e : ChainEntry.t Solution) :
  ChainEntry.fromRaw data = Some e ->
  is_hash (ChainEntry.hash e) = true /\
  is_hash (ChainEntry.prevBlock e) = true /\
  is_hash (ChainEntry.merkleRoot e) = true /\
  is_hash (ChainEntry.witnessRoot e) = true /\
  is_hash (ChainEntry.treeRoot e) = true /\
  0 <= ChainEntry.height e < 2 ^ 32 /\
  0 <= ChainEntry.version e < 2 ^ 32 /\
  0 <= ChainEntry.time e < 2 ^ 53 /\
  0 <= ChainEntry.bits e < 2 ^ 32 /\
  length (ChainEntry.nonce e) = consensus.NONCE_SIZE /\
  0 <= ChainEntry.chainwork e < 2 ^ 256 /\
  (200 <= length data)%nat.
Proof.
  unfold ChainEntry.fromRaw.
  destruct (ChainEntry.read data) as [[e' rest] |] eqn:Hr; [| discriminate].
  intros [= ->].
  apply read_inv in Hr
    as (h & ht & v & p & m & w & r & t & b & n & tail & tail' & c
        & -> & _ & _
        & (Lh & Lht & Lv & Lp & Lm & Lw & Lr & Lt & Lb & Ln & Lc)
        & Ht53 & -> & -> & -> & -> & -> & -> & -> & -> & -> & -> & ->).
  pose proof (le_value_range ht) as Rht. rewrite Lht in Rht.
  pose proof (le_value_range v) as Rv. rewrite Lv in Rv.
  pose proof (le_value_range t) as Rt.
  pose proof (le_value_range b) as Rb. rewrite Lb in Rb.
  pose proof (be_value_range c) as Rc. rewrite Lc in Rc.
  change (256 ^ Z.of_nat 4) with (2 ^ 32) in *.
  change (256 ^ Z.of_nat 32) with (2 ^ 256) in *.
  rewrite !is_hash_to_hex by assumption.
  repeat split; try lia; try assumption.
  rewrite !length_app. lia.
Qed.

(** X11: when the solution's reader is canonical, an entry that fromRaw
    returns is written by toRaw's writes as the very bytes it was read
    from: the data is those bytes and whatever followed them. *)
Theorem fromRaw_toRaw_writes (data : list byte) (e : ChainEntry.t Solution) :
  sol_reads_canonical Solution ->
  ChainEntry.fromRaw data = Some e ->
  exists written rest,
    ChainEntry.toRaw_writes e = Some written /\ data = written ++ rest.
Proof.
  intros Hcanon. unfold ChainEntry.fromRaw.
  destruct (ChainEntry.read data) as [[e' rest] |] eqn:Hr; [| discriminate].
  intros [= ->].
  apply read_inv in Hr
    as (h & ht & v & p & m & w & r & t & b & n & tail & tail' & c
        & -> & Hsol & ->
        & (Lh & Lht & Lv & Lp & Lm & Lw & Lr & Lt & Lb & Ln & Lc)
        & Ht53 & Eh & Eht & Ev & Ep & Em & Ew & Er & Et & Eb & En & Ec).
  apply Hcanon in Hsol. subst tail.
  pose proof (le_value_range t) as Rt.
  pose proof (be_value_range c) as Rc. rewrite Lc in Rc.
  change (256 ^ Z.of_nat 32) with (2 ^ 256) in Rc.
  exists (h ++ ht ++ v ++ p ++ m ++ w ++ r ++ t ++ b ++ n
            ++ sol_toWriter (ChainEntry.solution e) ++ c), rest.
  split.
  - unfold ChainEntry.toRaw_writes.
    rewrite Eh, Ep, Em, Ew, Er, Et, Ec, Eht, Ev, Eb, En.
    rewrite !writeHash_to_hex by assumption.
    rewrite writeU64_safe by lia.
    rewrite toArrayLike_be_u256 by lia.
    unfold bio.writeU32, bio.writeBytes.
    rewrite (le_bytes_le_value_n 4 ht Lht), (le_bytes_le_value_n 4 v Lv).
    rewrite (le_bytes_le_value_n 8 t Lt), (le_bytes_le_value_n 4 b Lb).
    rewrite (be_bytes_be_value_n 32 c Lc).
    reflexivity.
  - now rewrite <- !app_assoc.
Qed.

End entry_reading.

Lemma fromRaw_typed_witness :
  let e := ChainEntry.create (nil : list Z) in
  is_hash (ChainEntry.hash e) = true /\
  is_hash (ChainEntry.prevBlock e) = true /\
  is_hash (ChainEntry.merkleRoot e) = true /\
  is_hash (ChainEntry.witnessRoot e) = true /\
  is_hash (ChainEntry.treeRoot e) = true /\
  0 <= ChainEntry.height e < 2 ^ 32 /\
  0 <= ChainEntry.version e < 2 ^ 32 /\
  0 <= ChainEntry.time e < 2 ^ 53 /\
  0 <= ChainEntry.bits e < 2 ^ 32 /\
  length (ChainEntry.nonce e) = consensus.NONCE_SIZE /\
  0 <= ChainEntry.chainwork e < 2 ^ 256 /\
  (200 <= length example_raw)%nat.
Proof.
  apply (@fromRaw_typed _ words_codec example_raw (ChainEntry.create nil)).
  vm_compute. reflexivity.
Defined.

(** *** The example codec reads canonically *)

Lemma read_words_inv (k : nat) (bs rest : list byte) (s : list Z) :
  read_words k bs = Some (s, rest) ->
  bs = flat_map bio.writeU32 s ++ rest /\ length s = k.
Proof.
  revert bs s. induction k as [| k IH]; intros bs s Hr.
  - injection Hr as <- <-. now split.
  - cbn [read_words] in Hr.
    apply bind_inv in Hr as (w & r1 & Hw & Hr).
    apply readU32_inv in Hw as (wb & -> & Lw & ->).
    apply bind_inv in Hr as (ws & r2 & Hws & Hr).
    injection Hr as <- <-.
    apply IH in Hws as [-> <-].
    cbn [flat_map length]. change (bio.writeU32 (le_value wb))
      with (le_bytes 4 (le_value wb)).
    rewrite (le_bytes_le_value_n 4 wb Lw), <- app_assoc. now split.
Qed.

Lemma words_codec_canonical : @sol_reads_canonical (list Z) words_codec.
Proof.
  intros bs s rest Hr. cbn [sol_fromReader sol_toWriter words_codec] in *.
  apply bind_inv in Hr as (n & r1 & Hn & Hr).
  apply bind_inv in Hn as (w & r1' & Hw & Hret).
  injection Hret as <- <-.
  apply readBytes_inv in Hw as [-> Lw].
  apply read_words_inv in Hr as [-> Hlen].
  pose proof (le_value_range w).
  rewrite Hlen, Z2Nat.id by lia.
  unfold bio.writeU8. rewrite (le_bytes_le_value_n 1 w Lw).
  now rewrite <- app_assoc.
Qed.

Lemma fromRaw_toRaw_writes_witness :
  exists written rest,
    @ChainEntry.toRaw_writes _ words_codec (ChainEntry.create nil)
    = Some written /\
    example_raw ++ [x01; x02] = written ++ rest.
Proof.
  apply (@fromRaw_toRaw_writes _ words_codec (example_raw ++ [x01; x02])
           (ChainEntry.create nil) words_codec_canonical).
  vm_compute. reflexivity.
Defined.

(** *** Writing, then reading *)

Section entry_writing.

Context {Solution : Type} `{SolutionCodec Solution}.

Lemma read_toRaw_writes (e : ChainEntry.t Solution) (written rest : list byte) :
  sol_codec_laws Solution -> ChainEntry.well_formed e ->
  ChainEntry.toRaw_writes e = Some written ->
  ChainEntry.read (written ++ rest) = Some (e, rest).
Proof.
  intros Hlaws Hwf Hw.
  destruct (toRaw_writes_layout e Hlaws Hwf)
    as (h & p & m & w & r & Hraw & (Lh & Xh) & (Lp & Xp) & (Lm & Xm)
        & (Lw & Xw) & (Lr & Xr)).
  match type of Hraw with
  | _ = Some ?bytes => assert (written = bytes) as -> by congruence
  end.
  destruct Hwf as (_ & _ & _ & _ & _ & Hheight & Hversion & Htime & Hbits
                   & Hnonce & Hsol & Hcw).
  destruct Hlaws as [Hread _].
  rewrite <- !app_assoc.
  unfold ChainEntry.read.
  rewrite (bind_some _ _ _ _ _ (readHash_app h _ Lh)).
  rewrite (bind_some _ _ _ _ _ (readU32_app _ _ Hheight)).
  rewrite (bind_some _ _ _ _ _ (readU32_app _ _ Hversion)).
  rewrite (bind_some _ _ _ _ _ (readHash_app p _ Lp)).
  rewrite (bind_some _ _ _ _ _ (readHash_app m _ Lm)).
  rewrite (bind_some _ _ _ _ _ (readHash_app w _ Lw)).
  rewrite (bind_some _ _ _ _ _ (readHash_app r _ Lr)).
  rewrite (bind_some _ _ _ _ _ (readU64_app _ _ Htime)).
  rewrite (bind_some _ _ _ _ _ (readU32_app _ _ Hbits)).
  rewrite (bind_some _ _ _ _ _ (readBytes_app _ _ _ Hnonce)).
  rewrite (bind_some _ _ _ _ _ (Hread _ _ Hsol)).
  rewrite (bind_some _ _ _ _ _
             (readBytes_app 32 _ _ (length_be_bytes 32 _))).
  unfold bio.ret, BN.fromBE.
  rewrite be_value_be_bytes_small by exact Hcw.
  rewrite Xh, Xp, Xm, Xw, Xr. now destruct e.
Qed.

(** X12: for a well-formed entry the writes of toRaw succeed, and
    fromRaw reads the entry back from the bytes written, followed by
    anything or nothing: it does not look at what comes after them. *)
Theorem fromRaw_ignores_trailing (e : ChainEntry.t Solution) :
  sol_codec_laws Solution -> ChainEntry.well_formed e ->
  exists written,
    ChainEntry.toRaw_writes e = Some written /\
    forall rest, ChainEntry.fromRaw (written ++ rest) = Some e.
Proof.
  intros Hlaws Hwf.
  destruct (toRaw_writes_fromRaw e Hlaws Hwf) as (written & Hw & _ & _).
  exists written. split; [exact Hw |].
  intros rest. unfold ChainEntry.fromRaw.
  now rewrite (read_toRaw_writes e written rest Hlaws Hwf Hw).
Qed.

End entry_writing.

Lemma fromRaw_ignores_trailing_witness :
  exists written,
    @ChainEntry.toRaw_writes _ words_codec (ChainEntry.create nil)
    = Some written /\
    forall rest,
      @ChainEntry.fromRaw _ words_codec (written ++ rest)
      = Some (ChainEntry.create nil).
Proof.
  exact (@fromRaw_ignores_trailing _ words_codec (ChainEntry.create nil)
           words_codec_laws create_well_formed).
Defined.
